(** * QBdt: traversal, shard buffers and the big-integer index type

    A shallow embedding of the parts of the binary-decision-tree register that
    live in [include/qbdt.hpp] and of the arbitrary-precision index type
    [Qrack::BigInteger] (the GNU MP based header, and the in-place word
    operations of the word-array header), followed by the properties
    established about them.

    Conventions.
    - An [mpz_t] is an unbounded integer: [Z].  GMP gives negative operands
      of the bitwise functions their two's complement reading, as [Z.land],
      [Z.lor] and [Z.testbit] do.
    - Shift counts are [nat], and the unsigned type a count has in the source
      is an argument of the shift operators: the loop bound [sq + 1U] is
      computed in that type and wraps to [0] at its maximum.
    - Qubit counts and qubit indices ([bitLenInt]) are [nat].  A qubit index
      is below a qubit count, hence below the maximum of [bitLenInt], and
      the bound of a shift by a qubit index is [sq + 1].
    - [complex] is kept abstract, with the one operation the traversal uses.
    - Code that [qbdt.hpp] calls but that is defined elsewhere in the library
      ([ApplySingle], [IsPhase], the node methods) enters through the class
      [Collaborators]; [_par_for] and [MAllOptionalCollapse] are modelled
      from their description. *)

From Stdlib Require Import ZArith QArith Lia List Bool.
From Equations Require Import Equations.
From stdpp Require Import base list option.

Local Open Scope Z_scope.

(* ===================================================================== *)
(** * Part I.  The embedding *)
(* ===================================================================== *)

(** ** [Qrack::BigInteger], GNU MP version *)

Module BigInteger.

(** The GMP primitives the class is written with. *)

Definition mpz_sgn (op : Z) : Z := Z.sgn op.
Definition mpz_mul_2exp (op : Z) (cnt : nat) : Z := op * 2 ^ Z.of_nat cnt.
Definition mpz_tdiv_q_2exp (op : Z) (cnt : nat) : Z := Z.quot op (2 ^ Z.of_nat cnt).
Definition mpz_fdiv_q_2exp (op : Z) (cnt : nat) : Z := Z.div op (2 ^ Z.of_nat cnt).
Definition mpz_and (a b : Z) : Z := Z.land a b.
Definition mpz_ior (a b : Z) : Z := Z.lor a b.
Definition mpz_mul_si (op k : Z) : Z := op * k.
Definition mpz_sub_ui (op v : Z) : Z := op - v.
Definition mpz_tstbit (op : Z) (idx : nat) : Z :=
  if Z.testbit op (Z.of_nat idx) then 1 else 0.
Definition mpz_get_ui (op : Z) : Z := Z.abs op mod 2 ^ 64.
Definition mpz_cmp_ui (op v : Z) : Z :=
  match op ?= v with Lt => -1 | Eq => 0 | Gt => 1 end.

(** [is_zero], [is_negative], [is_positive]. *)

Definition is_zero (x : Z) : bool := mpz_sgn x =? 0.
Definition is_negative (x : Z) : bool := mpz_sgn x <? 0.
Definition is_positive (x : Z) : bool := 0 <? mpz_sgn x.

(** The template argument [__ST] of the shift operators, an unsigned
    integral type.  The calls of these headers pass a literal [1U]
    ([unsigned int]: [uint32_t]), a literal [1UL] or a [BIG_INTEGER_WORD]
    ([uint64_t]), or a qubit index.  A qubit index is a [bitLenInt]
    ([uint32_t] or [uint64_t] by the build) that is below a qubit count,
    itself a [bitLenInt]: it does not reach the maximum of its type. *)

Inductive count_type : Set := uint32_t | uint64_t | qubit_index.

Definition count_modulus (ST : count_type) : option Z :=
  match ST with
  | uint32_t => Some (2 ^ 32)
  | uint64_t => Some (2 ^ 64)
  | qubit_index => None
  end.

(** The bound [sq + 1U] of the loops [for (__ST i = 0; i < sq + 1U; ++i)]:
    the sum is computed in the unsigned type and is [0] when [sq] is the
    maximum of the type. *)

Definition loop_bound (ST : count_type) (sq : nat) : nat :=
  match count_modulus ST with
  | Some m => Z.to_nat ((Z.of_nat sq + 1) mod m)
  | None => (sq + 1)%nat
  end.

(** [operator>>(__ST sq) const].  [r] starts as zero ([mpz_init2]); the
    loop runs [i] from [0] to the bound and overwrites [r] at every round:
    first with the left shift, then with the quotient, truncated for a
    non-negative operand and floored for a negative one. *)

Definition operator_shr (ST : count_type) (x : Z) (sq : nat) : Z :=
  if (sq =? 0)%nat then x
  else if is_zero x then 0
  else if is_negative x then
    fold_left (fun (_ : Z) i => let r := mpz_mul_2exp x i in mpz_fdiv_q_2exp x i)
              (seq 0 (loop_bound ST sq)) 0
  else
    fold_left (fun (_ : Z) i => let r := mpz_mul_2exp x i in mpz_tdiv_q_2exp x i)
              (seq 0 (loop_bound ST sq)) 0.

(** [operator>>=(__ST sq)]: the same loop, always with the floored quotient. *)

Definition operator_shr_assign (ST : count_type) (x : Z) (sq : nat) : Z :=
  if (sq =? 0)%nat then x
  else
    fold_left (fun (_ : Z) i => let tmp := mpz_mul_2exp x i in mpz_fdiv_q_2exp x i)
              (seq 0 (loop_bound ST sq)) 0.

(** [operator&], [operator|], [operator~], [operator-=], [operator>]. *)

Definition operator_and (a b : Z) : Z := mpz_and a b.
Definition operator_or (a b : Z) : Z := mpz_ior a b.
Definition operator_not (x : Z) : Z := mpz_mul_si x (-1).
Definition operator_sub_assign (x v : Z) : Z := mpz_sub_ui x v.
Definition operator_gt (x v : Z) : bool := 0 <? mpz_cmp_ui x v.

(** The cast [(BIG_INTEGER_WORD) x]. *)

Definition to_word (x : Z) : Z := mpz_get_ui x.

(** [BigInteger::log2].  The [while (bip > 0UL)] loop halves a positive
    value, so it is defined by well-founded recursion on that value. *)

Equations? log2_loop (bip : Z) (r : Z) : Z by wf (Z.to_nat bip) lt :=
  log2_loop bip r with bool_dec (operator_gt bip 0) true => {
    | left Hgt := log2_loop (operator_shr_assign uint64_t bip 1) (r + 1);
    | right _ := r }.
Proof.
  assert (E : operator_shr_assign uint64_t bip 1 = bip / 2) by reflexivity.
  assert (0 < bip).
  { unfold operator_gt, mpz_cmp_ui in Hgt.
    destruct (bip ?= 0) eqn:Hc; try discriminate.
    apply Z.compare_gt_iff in Hc. lia. }
  rewrite E.
  assert (bip / 2 < bip) by (apply Z.div_lt; lia).
  assert (0 <= bip / 2) by (apply Z.div_pos; lia).
  lia.
Qed.

Definition log2 (rhs : Z) : Z :=
  let bip := operator_shr uint64_t rhs 1 in
  if is_negative bip || is_zero bip then -1 else log2_loop bip 0.

(** The free functions of the header. *)

Definition bi_compare_0 (left : Z) : Z := if is_zero left then 1 else 0.

Definition bi_compare_1 (left : Z) : Z :=
  if is_zero left then 0 else if is_negative left then -1 else 1.

Definition bi_decrement (pBigInt value : Z) : Z := operator_sub_assign pBigInt value.

Definition bi_rshift_ip (left : Z) (right : nat) : Z :=
  let tmp := operator_shr uint64_t left right in tmp.

Definition bi_and_1 (left : Z) : Z := mpz_tstbit left 0.

(** [bi_log2].  Nothing in the text of the loop bounds the number of rounds,
    so the rounds are counted by [fuel]; [None] means the loop is still
    running when the fuel is spent. *)

Fixpoint bi_log2_loop (fuel : nat) (p pw : Z) : option Z :=
  match fuel with
  | O => None
  | S fuel' =>
      if negb (bi_compare_0 p =? 0)
      then bi_log2_loop fuel' (bi_rshift_ip p 1) (pw + 1)
      else Some pw
  end.

Definition bi_log2 (fuel : nat) (n : Z) : option Z :=
  let p := operator_shr uint64_t n 1 in bi_log2_loop fuel p 0.

(** *** Division, left shifts and the remaining free functions *)

(** The GMP divisions.  A zero divisor is a division by zero inside GMP,
    which ends the program: [None]. *)

Definition mpz_cdiv_q (n d : Z) : option Z :=
  if d =? 0 then None else Some (- ((- n) / d)).

Definition mpz_cdiv_r (n d : Z) : option Z :=
  if d =? 0 then None else Some (n - (- ((- n) / d)) * d).

Definition mpz_fdiv_q (n d : Z) : option Z :=
  if d =? 0 then None else Some (n / d).

Definition mpz_fdiv_r (n d : Z) : option Z :=
  if d =? 0 then None else Some (n mod d).

(** [operator/(const BigInteger&)] and [operator%(const BigInteger&)]; the
    result of [mpz_init2] is zero. *)

Definition operator_div (a b : Z) : option Z :=
  if (mpz_sgn a =? -1) && (mpz_sgn b =? -1) then mpz_cdiv_q a b
  else if (mpz_sgn a =? -1) || (mpz_sgn b =? -1) then mpz_fdiv_q a b
  else if (mpz_sgn a =? 0) || (mpz_sgn b =? 0) then Some 0
  else mpz_cdiv_q a b.

Definition operator_mod (a b : Z) : option Z :=
  if (mpz_sgn a =? -1) && (mpz_sgn b =? -1) then mpz_cdiv_r a b
  else if (mpz_sgn a =? -1) || (mpz_sgn b =? -1) then mpz_fdiv_r a b
  else if (mpz_sgn a =? 0) || (mpz_sgn b =? 0) then Some 0
  else mpz_cdiv_r a b.

(** [operator/(BIG_INTEGER_WORD)] and [operator%(BIG_INTEGER_WORD)]. *)

Definition operator_div_word (a rhs : Z) : option Z :=
  if mpz_sgn a =? -1 then mpz_fdiv_q a rhs
  else if (mpz_sgn a =? 0) || (rhs =? 0) then Some 0
  else mpz_cdiv_q a rhs.

Definition operator_mod_word (a rhs : Z) : option Z :=
  if mpz_sgn a =? -1 then mpz_fdiv_r a rhs
  else if (mpz_sgn a =? 0) || (rhs =? 0) then Some 0
  else mpz_cdiv_r a rhs.

(** [bi_div_mod] of the source file of the class.  A pointer argument is
    [None] when null and otherwise holds the value it points to; the result
    is the pair of values the two pointers point to afterwards. *)

Definition bi_div_mod (left right : Z) (quotient rmndr : option Z)
    : option (option Z * option Z) :=
  match quotient, rmndr with
  | Some _, Some _ =>
      match mpz_cdiv_q left right, mpz_cdiv_r left right with
      | Some q, Some r => Some (Some q, Some r)
      | _, _ => None
      end
  | Some _, None =>
      match mpz_cdiv_q left right with
      | Some q => Some (Some q, None)
      | None => None
      end
  | None, Some _ =>
      match mpz_cdiv_r left right with
      | Some r => Some (None, Some r)
      | None => None
      end
  | None, None => Some (None, None)
  end.

(** [bi_div_mod_small]: both pointers are written.  The [_ui] divisions
    return the absolute value of the remainder, which is then cast to the
    half word. *)

Definition bi_div_mod_small (left right : Z) : option (Z * Z) :=
  if is_zero left then Some (0, 0)
  else if is_negative left then
    match mpz_fdiv_q left right, mpz_fdiv_r left right with
    | Some q, Some r => Some (q, Z.abs r mod 2 ^ 32)
    | _, _ => None
    end
  else
    match mpz_cdiv_q left right, mpz_cdiv_r left right with
    | Some q, Some r => Some (q, Z.abs r mod 2 ^ 32)
    | _, _ => None
    end.

(** [operator<<(__ST sq) const] and [operator<<=(__ST sq)]. *)

Definition operator_shl (ST : count_type) (x : Z) (sq : nat) : Z :=
  if (sq =? 0)%nat then x
  else if is_zero x then 0
  else fold_left (fun (_ : Z) i => mpz_mul_2exp x i) (seq 0 (loop_bound ST sq)) 0.

Definition operator_shl_assign (ST : count_type) (x : Z) (sq : nat) : Z :=
  if (sq =? 0)%nat then x
  else fold_left (fun (_ : Z) i => mpz_mul_2exp x i) (seq 0 (loop_bound ST sq)) 0.

(** The shifts of the free interface; their counts are [BIG_INTEGER_WORD].
    In this header the "word" shifts move by [rightMult] bits;
    [bi_lshift_word_ip] first reduces the count with [rightMult &= 63UL]. *)


Definition bi_lshift_word_ip (left : Z) (rightMult : nat) : Z :=
  let rightMult := Nat.land rightMult 63 in
  if (rightMult =? 0)%nat then left
  else let tmp := left in operator_shl uint64_t tmp rightMult.


Definition bi_rshift_word_ip (left : Z) (rightMult : nat) : Z :=
  if (rightMult =? 0)%nat then left
  else let tmp := left in operator_shr uint64_t tmp rightMult.


(** [bi_compare(left, right)] is the sign of [mpz_cmp]. *)

Definition bi_compare (left right : Z) : Z :=
  match left ?= right with Lt => -1 | Eq => 0 | Gt => 1 end.

End BigInteger.

(** ** The word-array header [include/common/big_integer.hpp]

    This header keeps an array of 64-bit words next to the [mpz_t]; its
    [bi_compare_0] scans the words. *)

Module BigIntegerWords.

Record BigInteger := mkBigInteger { bits : list Z; mpz : Z }.

Fixpoint bi_compare_0_from (words : list Z) : Z :=
  match words with
  | [] => 0
  | w :: rest => if negb (w =? 0) then 1 else bi_compare_0_from rest
  end.

Definition bi_compare_0 (left : BigInteger) : Z := bi_compare_0_from (bits left).

(** The number a word array holds, least significant word first. *)

Fixpoint words_value (words : list Z) : Z :=
  match words with
  | [] => 0
  | w :: rest => w + 2 ^ 64 * words_value rest
  end.

(** A [uint64_t]. *)

Definition is_word (w : Z) : Prop := 0 <= w < 2 ^ 64.

(** [bi_compare_1]: the words above the first are scanned from the top,
    then the first word is compared with [1]. *)

Definition bi_compare_1 (left : BigInteger) : option Z :=
  match bits left with
  | [] => None
  | w0 :: upper =>
      if negb (bi_compare_0_from (rev upper) =? 0) then Some 1
      else if 1 <? w0 then Some 1
      else if w0 <? 1 then Some (-1)
      else Some 0
  end.

Section WordOps.

(** [sync_mpz] reads the [mpz_t] back from the bytes of the array with
    [mpz_import]; what it reads depends on the byte order of the machine and
    is left open. *)

Variable mpz_import : list Z -> Z.

Definition sync_mpz (x : BigInteger) : BigInteger :=
  mkBigInteger (bits x) (mpz_import (bits x)).

(** The [for] loop of [bi_increment]: [temp = bits[i]++], left as soon as
    the word did not wrap. *)

Fixpoint increment_from (words : list Z) : list Z :=
  match words with
  | [] => []
  | w :: rest =>
      let temp := w in
      let w' := (w + 1) mod 2 ^ 64 in
      if temp <=? w' then w' :: rest else w' :: increment_from rest
  end.

(** [bi_increment]; an array without a first word does not exist. *)

Definition bi_increment (pBigInt : BigInteger) (value : Z) : option BigInteger :=
  match bits pBigInt with
  | [] => None
  | w0 :: rest =>
      let temp := w0 in
      let w0' := (w0 + value) mod 2 ^ 64 in
      let p1 := sync_mpz (mkBigInteger (w0' :: rest) (mpz pBigInt)) in
      if temp <=? w0' then Some p1
      else Some (sync_mpz (mkBigInteger (w0' :: increment_from rest) (mpz p1)))
  end.

(** The [for] loop of [bi_decrement]: [temp = bits[i]--], left as soon as
    the word did not wrap.  The loop starts at [i = 0]. *)

Fixpoint decrement_from (words : list Z) : list Z :=
  match words with
  | [] => []
  | w :: rest =>
      let temp := w in
      let w' := (w - 1) mod 2 ^ 64 in
      if w' <=? temp then w' :: rest else w' :: decrement_from rest
  end.

Definition bi_decrement (pBigInt : BigInteger) (value : Z) : option BigInteger :=
  match bits pBigInt with
  | [] => None
  | w0 :: rest =>
      let temp := w0 in
      let w0' := (w0 - value) mod 2 ^ 64 in
      let p1 := sync_mpz (mkBigInteger (w0' :: rest) (mpz pBigInt)) in
      if w0' <=? temp then Some p1
      else Some (sync_mpz (mkBigInteger (decrement_from (w0' :: rest)) (mpz p1)))
  end.

(** [bi_add_ip]: word [i] of [right] is added to word [i] of [left]; when
    the sum wrapped, the [while] loop carries into the words above at once,
    before the next round of the outer loop.  The last word is added
    without a carry out.  Both arrays have [BIG_INTEGER_WORD_SIZE] words. *)

Fixpoint add_from (right left : list Z) {struct right} : list Z :=
  match right, left with
  | v :: right', w :: left' =>
      let temp := w in
      let w' := (w + v) mod 2 ^ 64 in
      match left' with
      | [] => [w']
      | _ :: _ =>
          if w' <? temp then w' :: add_from right' (increment_from left')
          else w' :: add_from right' left'
      end
  | _, _ => left
  end.

Definition bi_add_ip (left right : BigInteger) : BigInteger :=
  sync_mpz (mkBigInteger (add_from (bits right) (bits left)) (mpz left)).

(** [bi_sub_ip], the same with a borrow. *)

Fixpoint sub_from (right left : list Z) {struct right} : list Z :=
  match right, left with
  | v :: right', w :: left' =>
      let temp := w in
      let w' := (w - v) mod 2 ^ 64 in
      match left' with
      | [] => [w']
      | _ :: _ =>
          if temp <? w' then w' :: sub_from right' (decrement_from left')
          else w' :: sub_from right' left'
      end
  | _, _ => left
  end.

Definition bi_sub_ip (left right : BigInteger) : BigInteger :=
  sync_mpz (mkBigInteger (sub_from (bits right) (bits left)) (mpz left)).

(** [bi_lshift_word_ip]: the count is masked with [63]; the first loop
    copies [bits[i - rightMult]] to [bits[i]] for ascending [i], in place;
    the second loop clears the words below [rightMult], and writes past the
    array when [rightMult] exceeds its size. *)

Definition lshift_word_copy (rightMult : nat) (words : list Z) : list Z :=
  fold_left (fun s i => <[i := default 0 (s !! (i - rightMult)%nat)]> s)
            (seq rightMult (length words - rightMult)) words.

Definition bi_lshift_word_ip (left : BigInteger) (rightMult : nat) : option BigInteger :=
  let rightMult := Nat.land rightMult 63 in
  if (rightMult =? 0)%nat then Some left
  else if (length (bits left) <? rightMult)%nat then None
  else
    let copied := lshift_word_copy rightMult (bits left) in
    let cleared := fold_left (fun s i => <[i := 0]> s) (seq 0 rightMult) copied in
    Some (sync_mpz (mkBigInteger cleared (mpz left))).

(** [bi_rshift_word_ip]: the count is taken as it is; the first loop copies
    [bits[i]] to [bits[i - rightMult]] for ascending [i], the second clears
    [bits[BIG_INTEGER_MAX_WORD_INDEX - i]] for [i < rightMult], outside the
    array when [rightMult] exceeds its size. *)

Definition rshift_word_copy (rightMult : nat) (words : list Z) : list Z :=
  fold_left (fun s i => <[(i - rightMult)%nat := default 0 (s !! i)]> s)
            (seq rightMult (length words - rightMult)) words.

Definition bi_rshift_word_ip (left : BigInteger) (rightMult : nat) : option BigInteger :=
  if (rightMult =? 0)%nat then Some left
  else if (length (bits left) <? rightMult)%nat then None
  else
    let copied := rshift_word_copy rightMult (bits left) in
    let cleared :=
      fold_left (fun s i => <[(length (bits left) - 1 - i)%nat := 0]> s)
                (seq 0 rightMult) copied in
    Some (sync_mpz (mkBigInteger cleared (mpz left))).

End WordOps.

End BigIntegerWords.

(** ** Static helpers of [QBdt] on permutation indices *)

(** [SelectBit(perm, bit)]; [bit] is a qubit index. *)

Definition SelectBit (perm : Z) (bit : nat) : Z :=
  BigInteger.bi_and_1 (BigInteger.operator_shr BigInteger.qubit_index perm bit).

Definition RemovePower (perm power : Z) : Z :=
  let power := BigInteger.bi_decrement power 1 in
  BigInteger.operator_or
    (BigInteger.operator_and perm power)
    (BigInteger.operator_and (BigInteger.operator_shr BigInteger.uint32_t perm 1)
                             (BigInteger.operator_not power)).

(** The expression of [RemovePower] with a bitwise complement where the class
    has [operator~]; this is what the word-by-word [operator~] that the older
    header keeps under [#if 0] computes. *)

Definition RemovePower_complement (perm power : Z) : Z :=
  let power := BigInteger.bi_decrement power 1 in
  BigInteger.operator_or
    (BigInteger.operator_and perm power)
    (BigInteger.operator_and (BigInteger.operator_shr BigInteger.uint32_t perm 1)
                             (Z.lnot power)).

(** What deleting bit [k] of [perm] means, in arithmetic. *)

Definition delete_bit (perm : Z) (k : nat) : Z :=
  perm mod 2 ^ Z.of_nat k + 2 ^ Z.of_nat k * (perm / 2 ^ (Z.of_nat k + 1)).

(** ** The dispatch of [ProbParity] and [ForceMParity]

    Both methods have the same three exits: the constant result for an empty
    mask, the single-qubit method on [log2(mask)], and the state-vector
    engine.  [log2] is the library's function on [bitCapInt], defined outside
    these headers. *)

Inductive ParityRoute : Type :=
| EmptyMask
| SingleQubit (qubit : Z)
| AsStateVector.

Definition parity_route (log2 : Z -> Z) (mask : Z) : ParityRoute :=
  if BigInteger.bi_compare_0 mask =? 0 then EmptyMask
  else
    let maskMin1 := BigInteger.bi_decrement mask 1 in
    if BigInteger.bi_compare_0 (BigInteger.operator_and mask maskMin1) =? 0
    then SingleQubit (log2 mask)
    else AsStateVector.

Definition ProbParity (log2 : Z -> Z) (mask : Z) : ParityRoute :=
  parity_route log2 mask.

Definition ForceMParity (log2 : Z -> Z) (mask : Z) : ParityRoute :=
  parity_route log2 mask.

(** ** The swap gates

    Each of the eight methods orders its two qubits and hands them to the
    method of the same name in the base class; the model returns that
    call. *)

Inductive SwapGate : Type :=
| GSwap | GISwap | GIISwap | GSqrtSwap | GISqrtSwap
| GCSwap | GCSqrtSwap | GCISqrtSwap.

Record BaseCall : Type := mkBaseCall {
  call_gate : SwapGate;
  call_controls : list nat;
  call_q1 : nat;
  call_q2 : nat
}.

Definition Swap (q1 q2 : nat) : BaseCall :=
  let (q1, q2) := if (q2 <? q1)%nat then (q2, q1) else (q1, q2) in
  mkBaseCall GSwap [] q1 q2.

Definition ISwap (q1 q2 : nat) : BaseCall :=
  let (q1, q2) := if (q2 <? q1)%nat then (q2, q1) else (q1, q2) in
  mkBaseCall GISwap [] q1 q2.

Definition IISwap (q1 q2 : nat) : BaseCall :=
  let (q1, q2) := if (q2 <? q1)%nat then (q2, q1) else (q1, q2) in
  mkBaseCall GIISwap [] q1 q2.

Definition SqrtSwap (q1 q2 : nat) : BaseCall :=
  let (q1, q2) := if (q2 <? q1)%nat then (q2, q1) else (q1, q2) in
  mkBaseCall GSqrtSwap [] q1 q2.

Definition ISqrtSwap (q1 q2 : nat) : BaseCall :=
  let (q1, q2) := if (q2 <? q1)%nat then (q2, q1) else (q1, q2) in
  mkBaseCall GISqrtSwap [] q1 q2.

Definition CSwap (controls : list nat) (q1 q2 : nat) : BaseCall :=
  let (q1, q2) := if (q2 <? q1)%nat then (q2, q1) else (q1, q2) in
  mkBaseCall GCSwap controls q1 q2.

Definition CSqrtSwap (controls : list nat) (q1 q2 : nat) : BaseCall :=
  let (q1, q2) := if (q2 <? q1)%nat then (q2, q1) else (q1, q2) in
  mkBaseCall GCSqrtSwap controls q1 q2.

Definition CISqrtSwap (controls : list nat) (q1 q2 : nat) : BaseCall :=
  let (q1, q2) := if (q2 <? q1)%nat then (q2, q1) else (q1, q2) in
  mkBaseCall GCISqrtSwap controls q1 q2.

(** ** Build configuration

    [UINTPOW] selects the width of [bitCapIntOcl], the index type handed to
    the traversal callbacks; the chain of [#if UINTPOW < ...] tests is that
    of [qrack_types.hpp]. *)

Class Config := { UINTPOW : Z }.

Definition bitCapIntOcl_bits `{Config} : Z :=
  if UINTPOW <? 4 then 8
  else if UINTPOW <? 5 then 16
  else if UINTPOW <? 6 then 32
  else 64.

(** The cast [(bitCapIntOcl)i] of a [BigInteger]: [mpz_get_ui], then the
    narrowing to the callback's index type. *)

Definition to_bitCapIntOcl `{Config} (i : Z) : Z :=
  BigInteger.mpz_get_ui i mod 2 ^ bitCapIntOcl_bits.

(** ** Amplitudes *)

Class ComplexOps := {
  complex : Type;
  cmul : complex -> complex -> complex
}.

(** ** Loops with a body that may go wrong

    [None] stands for behaviour the language leaves undefined: an index past
    the end of [shards], a null node dereferenced. *)

Fixpoint for_each {A St : Type} (l : list A) (body : A -> St -> option St)
    (s : St) : option St :=
  match l with
  | [] => Some s
  | x :: l' =>
      match body x s with
      | Some s' => for_each l' body s'
      | None => None
      end
  end.

(** Modelled from the spec: [_par_for] is declared in [qbdt.hpp] and defined
    in the library's sources.  A call returns only after every index of
    [0, end) has been handed to the callback once, the workers taking
    disjoint indices; the model takes them in increasing order. *)

Definition par_for {St : Type} (end_ : Z) (fn : Z -> St -> option St)
    (s : St) : option St :=
  for_each (seqZ 0 end_) fn s.

Section Model.

Context {CFG : Config} {CO : ComplexOps}.

(** A node: its scale and the two branch pointers, either of which may be
    null.  [branches t k] is [t->branches[k]] for the two indices [0] and
    [1] that [SelectBit] produces. *)

#[warnings="-register-all"] Inductive QBdtNode : Type :=
| mkNode (scale : complex) (branch0 branch1 : option QBdtNode).

Definition node_scale (t : QBdtNode) : complex :=
  match t with mkNode s _ _ => s end.

Definition branches (t : QBdtNode) (k : Z) : option QBdtNode :=
  match t with mkNode _ b0 b1 => if k =? 0 then b0 else b1 end.

Definition set_scale (s : complex) (t : QBdtNode) : QBdtNode :=
  match t with mkNode _ b0 b1 => mkNode s b0 b1 end.

Definition set_branch (t : QBdtNode) (k : Z) (c : QBdtNode) : QBdtNode :=
  match t with
  | mkNode s b0 b1 => if k =? 0 then mkNode s (Some c) b1 else mkNode s b0 (Some c)
  end.

(** A 2x2 gate matrix, row major, and the shard that holds a pending one. *)

Definition Mtrx : Type := (complex * complex * complex * complex)%type.

Record MpsShard : Type := mkShard { gate : Mtrx }.

(** What [qbdt.hpp] calls and does not define.  [apply_single] is the effect
    of [ApplySingle(mtrx, target)] on the tree; [Branch], [PopStateVector]
    and [Prune] are the node methods; [new_QBdtNode] is the node that
    [std::make_shared<QBdtNode>()] builds. *)

Class Collaborators := {
  IsPhase : MpsShard -> bool;
  apply_single : Mtrx -> nat -> QBdtNode -> QBdtNode;
  Branch : nat -> QBdtNode -> QBdtNode;
  PopStateVector : nat -> QBdtNode -> QBdtNode;
  Prune : nat -> QBdtNode -> QBdtNode;
  new_QBdtNode : QBdtNode
}.

Context {CB : Collaborators}.

(** The register.  [applied] is not a member of the class: it records, in
    call order, the arguments of every [ApplySingle] call, so that a
    statement can say which buffers were committed. *)

Record QBdt : Type := mkQBdt {
  qubitCount : nat;
  root : QBdtNode;
  shards : list (option MpsShard);
  applied : list (Mtrx * nat)
}.

(** [maxQPower] is the member that the base class keeps equal to
    [2^qubitCount]. *)

Definition maxQPower (q : QBdt) : Z := 2 ^ Z.of_nat (qubitCount q).

Definition set_root (r : QBdtNode) (q : QBdt) : QBdt :=
  mkQBdt (qubitCount q) r (shards q) (applied q).

Definition set_shard (t : nat) (s : option MpsShard) (q : QBdt) : QBdt :=
  mkQBdt (qubitCount q) (root q) (<[t := s]> (shards q)) (applied q).

Definition ApplySingle (mtrx : Mtrx) (target : nat) (q : QBdt) : QBdt :=
  mkQBdt (qubitCount q) (apply_single mtrx target (root q)) (shards q)
         (applied q ++ [(mtrx, target)]).

(** *** Shard buffers *)

Definition DumpBuffers (q : QBdt) : QBdt :=
  fold_left (fun q i => set_shard i None q) (seq 0 (length (shards q))) q.

Definition FlushBuffer (t : nat) (q : QBdt) : option QBdt :=
  match shards q !! t with
  | None => None
  | Some None => Some q
  | Some (Some shard) => Some (ApplySingle (gate shard) t (set_shard t None q))
  end.

Definition FlushBuffers (q : QBdt) : option QBdt :=
  for_each (seq 0 (length (shards q))) FlushBuffer q.

Definition flush_if_not_phase (i : nat) (q : QBdt) : option QBdt :=
  match shards q !! i with
  | None => None
  | Some None => Some q
  | Some (Some shard) =>
      if negb (IsPhase shard)
      then Some (ApplySingle (gate shard) i (set_shard i None q))
      else Some q
  end.

(** [FlushIfBlocked(controls)] and [FlushIfBlocked(target, controls)]. *)

Definition FlushIfBlocked_controls (controls : list nat) (q : QBdt) : option QBdt :=
  for_each controls flush_if_not_phase q.

Definition FlushIfBlocked (target : nat) (controls : list nat) (q : QBdt)
    : option QBdt :=
  match FlushIfBlocked_controls controls q with
  | Some q' => FlushBuffer target q'
  | None => None
  end.

Definition FlushNonPhaseBuffers (q : QBdt) : option QBdt :=
  for_each (seq 0 (length (shards q))) flush_if_not_phase q.

(** *** Read direction *)

(** The body of the callback of [GetTraversal]: [steps] rounds of the [for]
    loop are left, [j] is the loop counter, [leaf] and [scale] the two
    locals. *)

Fixpoint GetTraversal_descend (i : Z) (j steps : nat) (leaf : QBdtNode)
    (scale : complex) : complex :=
  match steps with
  | O => scale
  | S steps' =>
      match branches leaf (SelectBit i j) with
      | None => scale
      | Some leaf' =>
          GetTraversal_descend i (S j) steps' leaf' (cmul scale (node_scale leaf'))
      end
  end.

Definition GetTraversal_amplitude (q : QBdt) (i : Z) : complex :=
  GetTraversal_descend i 0 (qubitCount q) (root q) (node_scale (root q)).

Definition GetTraversal {Sink : Type} (getLambda : Z -> complex -> Sink -> Sink)
    (q : QBdt) (sink : Sink) : option (QBdt * Sink) :=
  match FlushBuffers q with
  | None => None
  | Some q1 =>
      match par_for (maxQPower q1)
              (fun i s => Some (getLambda (to_bitCapIntOcl i)
                                          (GetTraversal_amplitude q1 i) s))
              sink with
      | None => None
      | Some sink' => Some (q1, sink')
      end
  end.

(** [GetQuantumState(complex* state)]: the callback stores into the caller's
    array. *)

Definition GetQuantumState (q : QBdt) (state : list complex)
    : option (QBdt * list complex) :=
  GetTraversal (fun i scale st => <[Z.to_nat i := scale]> st) q state.

(** *** Write direction *)

(** The callback of [SetTraversal]: the descent has no null test, and the
    caller's [setLambda] then works on the node it reached.  The tree is a
    value here, so the node reached is written through the path that leads
    to it; this is the in-place write of the source as long as the branches
    that [Branch] built are separate nodes. *)

Fixpoint SetTraversal_descend (i : Z) (j steps : nat)
    (setLambda : QBdtNode -> QBdtNode) (leaf : QBdtNode) : option QBdtNode :=
  match steps with
  | O => Some (setLambda leaf)
  | S steps' =>
      match branches leaf (SelectBit i j) with
      | None => None
      | Some leaf' =>
          match SetTraversal_descend i (S j) steps' setLambda leaf' with
          | Some leaf'' => Some (set_branch leaf (SelectBit i j) leaf'')
          | None => None
          end
      end
  end.

Definition SetTraversal (setLambda : Z -> QBdtNode -> QBdtNode) (q : QBdt)
    : option QBdt :=
  let q1 := DumpBuffers q in
  let root1 := Branch (qubitCount q1) new_QBdtNode in
  match par_for (maxQPower q1)
          (fun i r => SetTraversal_descend i 0 (qubitCount q1)
                        (setLambda (to_bitCapIntOcl i)) r)
          root1 with
  | None => None
  | Some root2 =>
      Some (set_root (Prune (qubitCount q1) (PopStateVector (qubitCount q1) root2)) q1)
  end.

(** [SetQuantumState(const complex* state)]; the array is read as a function
    of the index. *)

Definition SetQuantumState (state : Z -> complex) (q : QBdt) : option QBdt :=
  SetTraversal (fun i leaf => set_scale (state i) leaf) q.

End Model.

(** ** Sampling a joint outcome *)

(** What the walk needs beyond the product of scales: the zero amplitude,
    the squared magnitude, and the rescaling of a kept branch. *)

Class MeasureOps `{ComplexOps} := {
  ZERO_CMPLX : complex;
  norm : complex -> Q;
  renormalize : complex -> complex
}.

Section Measurement.

Context {CFG : Config} {CO : ComplexOps} {CB : Collaborators} {MO : MeasureOps}.

(** The canonical empty leaf: zero scale, no branches. *)

Definition empty_leaf : QBdtNode := mkNode ZERO_CMPLX None None.

(** A branch is taken with probability equal to its locally renormalized
    squared magnitude: of two branches with squared magnitudes [n0] and
    [n1], a uniform draw [u] of [0, 1) selects branch 1 when
    [u * (n0 + n1) < n1]. *)

Definition draws_one (u n0 n1 : Q) : bool :=
  negb (Qle_bool n1 (u * (n0 + n1))).

(** Modelled from the spec: [MAllOptionalCollapse] is declared in [qbdt.hpp]
    and its body is not in these headers.  One root-to-leaf walk samples the
    whole outcome, the qubit of depth [j] giving bit [j] of the result;
    [rand j] is the uniform draw used at depth [j].  When [isCollapsing],
    each node visited is rewritten to the sampled path: the branch not taken
    becomes the empty leaf and the branch taken is rescaled.  Otherwise
    nothing is written.  The walk ends early at a node whose branches are
    not both present. *)

Fixpoint MAll_walk (isCollapsing : bool) (rand : nat -> Q) (j steps : nat)
    (leaf : QBdtNode) (result : Z) : Z * QBdtNode :=
  match steps with
  | O => (result, leaf)
  | S steps' =>
      match leaf with
      | mkNode s (Some b0) (Some b1) =>
          if draws_one (rand j) (norm (node_scale b0)) (norm (node_scale b1))
          then
            let (res, b1') :=
              MAll_walk isCollapsing rand (S j) steps' b1
                        (Z.lor result (2 ^ Z.of_nat j)) in
            if isCollapsing
            then (res, mkNode s (Some empty_leaf)
                              (Some (set_scale (renormalize (node_scale b1)) b1')))
            else (res, mkNode s (Some b0) (Some b1'))
          else
            let (res, b0') := MAll_walk isCollapsing rand (S j) steps' b0 result in
            if isCollapsing
            then (res, mkNode s (Some (set_scale (renormalize (node_scale b0)) b0'))
                              (Some empty_leaf))
            else (res, mkNode s (Some b0') (Some b1))
      | _ => (result, leaf)
      end
  end.

(** Modelled from the spec: the method [MAllOptionalCollapse] itself.  Any
    measurement flushes the pending shard buffers first; the walk above is
    then started at the root of the flushed tree with an empty result.
    [FlushBuffers] goes wrong on no register (lemma [FlushBuffers_commits]),
    so the second case of the [match] is never taken. *)

Definition MAllOptionalCollapse (isCollapsing : bool) (rand : nat -> Q) (q : QBdt)
    : Z * QBdt :=
  match FlushBuffers q with
  | Some q1 =>
      let (res, r) := MAll_walk isCollapsing rand 0 (qubitCount q1) (root q1) 0 in
      (res, set_root r q1)
  | None => (0, q)
  end.

(** [MAll] and [SampleClone] are written out in [qbdt.hpp]; [pow2(i)] is
    [2^i]. *)

Definition MAll (rand : nat -> Q) (q : QBdt) : Z * QBdt :=
  MAllOptionalCollapse true rand q.

Definition SampleClone (rand : nat -> Q) (qPowers : list Z) (q : QBdt) : Z * QBdt :=
  let (rawSample, q') := MAllOptionalCollapse false rand q in
  let sample :=
    fold_left
      (fun sample i =>
         match qPowers !! i with
         | Some qPower =>
             if negb (BigInteger.bi_compare_0 (BigInteger.operator_and rawSample qPower) =? 0)
             then BigInteger.operator_or sample (2 ^ Z.of_nat i)
             else sample
         | None => sample
         end)
      (seq 0 (length qPowers)) 0 in
  (sample, q').

(** A tree mutated to the path of [result], from depth [j] over [steps]
    levels: at every node of the path the branch that bit [j] of [result]
    does not select becomes the empty leaf, the branch it selects is
    rescaled and mutated in turn below; the path ends at a node that lacks a
    branch, and nothing off the path is kept. *)


(** [GetProbs(real1* outputProbs)]: the callback stores the squared
    magnitude. *)

Definition GetProbs (q : QBdt) (outputProbs : list Q) : option (QBdt * list Q) :=
  GetTraversal (fun i scale st => <[Z.to_nat i := norm scale]> st) q outputProbs.

End Measurement.

(** ** Vocabulary of the statements *)

Section Vocabulary.

Context {CFG : Config} {CO : ComplexOps} {CB : Collaborators}.

(** The nodes met below [t] on the path that the bits of [i] select, bit [j]
    deciding the first step, over at most [steps] levels; the path ends at a
    null branch. *)

Fixpoint path_nodes (i : Z) (j steps : nat) (t : QBdtNode) : list QBdtNode :=
  match steps with
  | O => []
  | S steps' =>
      match branches t (if Z.testbit i (Z.of_nat j) then 1 else 0) with
      | None => []
      | Some c => c :: path_nodes i (S j) steps' c
      end
  end.

(** The node that path reaches after exactly [steps] levels, if no branch
    on the way is null. *)

Fixpoint leaf_at (i : Z) (j steps : nat) (t : QBdtNode) : option QBdtNode :=
  match steps with
  | O => Some t
  | S steps' =>
      match branches t (if Z.testbit i (Z.of_nat j) then 1 else 0) with
      | None => None
      | Some c => leaf_at i (S j) steps' c
      end
  end.

(** The product of the scales along that path, the root's first. *)

Definition path_product (steps : nat) (t : QBdtNode) (i : Z) : complex :=
  fold_left cmul (map node_scale (path_nodes i 0 steps t)) (node_scale t).

(** The pending buffers of a shard vector, as [(gate, qubit)] pairs in qubit
    order; [i] is the qubit of the first entry. *)

Fixpoint pending_from (i : nat) (sh : list (option MpsShard)) : list (Mtrx * nat) :=
  match sh with
  | [] => []
  | None :: rest => pending_from (S i) rest
  | Some s :: rest => (gate s, i) :: pending_from (S i) rest
  end.

Definition pending (sh : list (option MpsShard)) : list (Mtrx * nat) :=
  pending_from 0 sh.

(** Committing one buffer, and a list of them, into a tree. *)

Definition commit (r : QBdtNode) (c : Mtrx * nat) : QBdtNode :=
  apply_single (fst c) (snd c) r.

Definition commit_all (cs : list (Mtrx * nat)) (r : QBdtNode) : QBdtNode :=
  fold_left commit cs r.

(** What a read traversal hands to its sink: for every permutation index the
    index, as a [bitCapIntOcl], and the path product. *)

Definition deliveries (q : QBdt) : list (Z * complex) :=
  map (fun i => (to_bitCapIntOcl i, path_product (qubitCount q) (root q) i))
      (seqZ 0 (maxQPower q)).

Definition deliver {Sink : Type} (getLambda : Z -> complex -> Sink -> Sink)
    (ds : list (Z * complex)) (sink : Sink) : Sink :=
  fold_left (fun s d => getLambda (fst d) (snd d) s) ds sink.

(** A qubit is blocked by a list of controls when the list names it and its
    pending buffer is not a phase gate. *)

Definition blocked (controls : list nat) (sh : list (option MpsShard)) (c : nat) : bool :=
  bool_decide (c ∈ controls) &&
  match sh !! c with
  | Some (Some s) => negb (IsPhase s)
  | _ => false
  end.

(** A tree with both branches present at every node of its first [steps]
    levels. *)

Fixpoint expanded (steps : nat) (t : QBdtNode) : Prop :=
  match steps with
  | O => True
  | S steps' =>
      match t with
      | mkNode _ (Some b0) (Some b1) => expanded steps' b0 /\ expanded steps' b1
      | _ => False
      end
  end.

End Vocabulary.

(** ** A small register to run the definitions on

    Integer amplitudes; [ApplySingle] leaves a visible mark, multiplying the
    root scale by [2] plus the upper right entry of the gate; [Branch] fills
    in missing branches with unit nodes and the two passes that follow the
    assignment of the leaves change nothing. *)

Definition demo_config : Config := {| UINTPOW := 6 |}.

Definition demo_complex : ComplexOps := {| complex := Z; cmul := Z.mul |}.

Section Demo.

Existing Instance demo_config.
Existing Instance demo_complex.

Fixpoint demo_Branch (depth : nat) (t : QBdtNode) : QBdtNode :=
  match depth with
  | O => t
  | S d =>
      match t with
      | mkNode s b0 b1 =>
          mkNode s
            (Some (demo_Branch d (default (mkNode 1 None None) b0)))
            (Some (demo_Branch d (default (mkNode 1 None None) b1)))
      end
  end.

Definition demo_collaborators : Collaborators := {|
  IsPhase := fun s =>
    match gate s with (_, m01, m10, _) => (m01 =? 0) && (m10 =? 0) end;
  apply_single := fun m _ r =>
    match m with (_, m01, _, _) => set_scale ((2 + m01) * node_scale r) r end;
  Branch := demo_Branch;
  PopStateVector := fun _ t => t;
  Prune := fun _ t => t;
  new_QBdtNode := mkNode 1 None None
|}.

Definition demo_measure : MeasureOps := {|
  ZERO_CMPLX := 0;
  norm := fun z => inject_Z (z * z);
  renormalize := fun z => Z.sgn z
|}.

(** A sink that records what it is handed, and a source of amplitudes. *)

Definition demo_record (i : Z) (a : Z) (s : list (Z * Z)) : list (Z * Z) :=
  s ++ [(i, a)].

Definition demo_assign (i : Z) (leaf : QBdtNode) : QBdtNode :=
  set_scale (i + 5) leaf.

(** One qubit, amplitudes [3] and [4], and a pending gate on the qubit. *)

Definition demo_X : Mtrx := (0, 1, 1, 0).

Definition demo_Z : Mtrx := (1, 0, 0, -1).

Definition demo_register : QBdt :=
  mkQBdt 1 (mkNode 1 (Some (mkNode 3 None None)) (Some (mkNode 4 None None)))
         [Some (mkShard demo_X)] [].

(** Two qubits with amplitudes [1 .. 4] at the indices [0 .. 3], a phase
    gate pending on qubit 0 and a non-phase gate on qubit 1. *)

Definition demo_register2 : QBdt :=
  mkQBdt 2
    (mkNode 1
       (Some (mkNode 1 (Some (mkNode 1 None None)) (Some (mkNode 3 None None))))
       (Some (mkNode 2 (Some (mkNode 1 None None)) (Some (mkNode 2 None None)))))
    [Some (mkShard demo_Z); Some (mkShard demo_X)] [].

End Demo.

(* ===================================================================== *)
(** * Part II.  Properties *)
(* ===================================================================== *)

(** ** Shifts and bit selection *)

Lemma fold_left_overwrite (g : nat -> Z) (n : nat) (a : Z) :
  fold_left (fun (_ : Z) i => g i) (seq 0 (n + 1)) a = g n.
Proof.
  rewrite Nat.add_1_r, seq_S, fold_left_app. reflexivity.
Qed.

(** Where the loop bound does not wrap, the last round decides. *)

Lemma operator_shr_shiftr (ST : BigInteger.count_type) (x : Z) (sq : nat) :
  BigInteger.loop_bound ST sq = (sq + 1)%nat ->
  BigInteger.operator_shr ST x sq = Z.shiftr x (Z.of_nat sq).
Proof.
  intros Hbound. unfold BigInteger.operator_shr. rewrite Hbound.
  destruct (Nat.eqb_spec sq 0) as [-> | Hsq]; [reflexivity |].
  unfold BigInteger.is_zero, BigInteger.is_negative, BigInteger.mpz_sgn.
  destruct (Z.eqb_spec (Z.sgn x) 0) as [Hz | Hz].
  - apply -> Z.sgn_null_iff in Hz. subst x. now rewrite Z.shiftr_0_l.
  - rewrite Z.shiftr_div_pow2 by lia.
    destruct (Z.ltb_spec (Z.sgn x) 0) as [Hn | Hn].
    + rewrite (fold_left_overwrite
                 (fun i => let r := BigInteger.mpz_mul_2exp x i in
                           BigInteger.mpz_fdiv_q_2exp x i)).
      reflexivity.
    + rewrite (fold_left_overwrite
                 (fun i => let r := BigInteger.mpz_mul_2exp x i in
                           BigInteger.mpz_tdiv_q_2exp x i)).
      cbv zeta. unfold BigInteger.mpz_tdiv_q_2exp.
      assert (0 <= x) by (apply Z.sgn_nonneg; lia).
      apply Z.quot_div_nonneg; [assumption | apply Z.pow_pos_nonneg; lia].
Qed.

Lemma operator_shr_assign_shiftr (ST : BigInteger.count_type) (x : Z) (sq : nat) :
  BigInteger.loop_bound ST sq = (sq + 1)%nat ->
  BigInteger.operator_shr_assign ST x sq = Z.shiftr x (Z.of_nat sq).
Proof.
  intros Hbound. unfold BigInteger.operator_shr_assign. rewrite Hbound.
  destruct (Nat.eqb_spec sq 0) as [-> | Hsq]; [reflexivity |].
  rewrite (fold_left_overwrite
             (fun i => let tmp := BigInteger.mpz_mul_2exp x i in
                       BigInteger.mpz_fdiv_q_2exp x i)).
  rewrite Z.shiftr_div_pow2 by lia. reflexivity.
Qed.

(** [SelectBit(perm, bit)] is bit [bit] of [perm]. *)

Lemma SelectBit_testbit (perm : Z) (bit : nat) :
  SelectBit perm bit = if Z.testbit perm (Z.of_nat bit) then 1 else 0.
Proof.
  unfold SelectBit, BigInteger.bi_and_1, BigInteger.mpz_tstbit.
  rewrite operator_shr_shiftr, Z.shiftr_spec by reflexivity.
  reflexivity.
Qed.

(** ** [bi_compare_0] *)

Lemma bi_compare_0_char (x : Z) :
  BigInteger.bi_compare_0 x = if x =? 0 then 1 else 0.
Proof.
  unfold BigInteger.bi_compare_0, BigInteger.is_zero, BigInteger.mpz_sgn.
  destruct (Z.eqb_spec x 0) as [-> | Hx]; [reflexivity |].
  destruct (Z.eqb_spec (Z.sgn x) 0) as [Hs | Hs]; [| reflexivity].
  apply -> Z.sgn_null_iff in Hs. contradiction.
Qed.

(** The scan of the word array answers [0] exactly when every word is
    zero. *)

Lemma words_bi_compare_0_zero (x : BigIntegerWords.BigInteger) :
  BigIntegerWords.bi_compare_0 x = 0 <-> Forall (fun w => w = 0) (BigIntegerWords.bits x).
Proof.
  unfold BigIntegerWords.bi_compare_0.
  induction (BigIntegerWords.bits x) as [| w rest IH]; simpl.
  - split; [constructor | reflexivity].
  - destruct (Z.eqb_spec w 0) as [-> | Hw]; simpl.
    + rewrite IH. split; [now constructor | now inversion 1].
    + split; [discriminate | inversion 1; contradiction].
Qed.

(** With this [bi_compare_0] neither parity method ever reaches its
    single-qubit exit: a mask other than zero leaves through the exit meant
    for the empty mask, and the empty mask goes to the state-vector
    engine. *)

Lemma parity_route_zero (log2 : Z -> Z) : parity_route log2 0 = AsStateVector.
Proof. reflexivity. Qed.

Lemma parity_route_nonzero (log2 : Z -> Z) (mask : Z) :
  mask <> 0 -> parity_route log2 mask = EmptyMask.
Proof.
  intros Hm. unfold parity_route. rewrite bi_compare_0_char.
  destruct (Z.eqb_spec mask 0); [contradiction | reflexivity].
Qed.

(** C7. [bi_compare_0] of the GNU MP header answers [1] for zero and [0] for
    every other value, the reverse of the convention "[0] if and only if the
    operand is zero"; on the empty mask [ProbParity] and [ForceMParity]
    therefore skip their first exit and hand the mask to the state-vector
    engine. *)

Theorem bi_compare_0_answers_one_on_zero :
  BigInteger.bi_compare_0 0 = 1 /\
  (forall x : Z, BigInteger.bi_compare_0 x = if x =? 0 then 1 else 0) /\
  (forall log2 : Z -> Z, ProbParity log2 0 = AsStateVector) /\
  (forall log2 : Z -> Z, ForceMParity log2 0 = AsStateVector).
Proof.
  split; [reflexivity |].
  split; [exact bi_compare_0_char |].
  split; intro log2; exact (parity_route_zero log2).
Qed.

(** ** Logarithms *)

Lemma operator_gt_0 (x : Z) : BigInteger.operator_gt x 0 = (0 <? x).
Proof.
  unfold BigInteger.operator_gt, BigInteger.mpz_cmp_ui.
  destruct (Z.compare_spec x 0); destruct (Z.ltb_spec 0 x); try reflexivity; lia.
Qed.

Lemma log2_loop_pos (bip r : Z) :
  0 < bip -> BigInteger.log2_loop bip r = BigInteger.log2_loop (bip / 2) (r + 1).
Proof.
  intros Hb. rewrite BigInteger.log2_loop_equation_1.
  destruct (bool_dec (BigInteger.operator_gt bip 0) true) as [Hp | Hn]; simpl.
  - rewrite operator_shr_assign_shiftr by reflexivity. now rewrite Z.shiftr_div_pow2.
  - rewrite operator_gt_0 in Hn. destruct (Z.ltb_spec 0 bip); [congruence | lia].
Qed.

Lemma log2_loop_nonpos (bip r : Z) :
  bip <= 0 -> BigInteger.log2_loop bip r = r.
Proof.
  intros Hb. rewrite BigInteger.log2_loop_equation_1.
  destruct (bool_dec (BigInteger.operator_gt bip 0) true) as [Hp | Hn]; simpl.
  - rewrite operator_gt_0 in Hp. apply Z.ltb_lt in Hp. lia.
  - reflexivity.
Qed.

Lemma log2_loop_pow2 (m : nat) (r : Z) :
  BigInteger.log2_loop (2 ^ Z.of_nat m) r = r + Z.of_nat m + 1.
Proof.
  revert r. induction m as [| m IH]; intro r.
  - change (2 ^ Z.of_nat 0) with 1.
    rewrite log2_loop_pos by lia. change (1 / 2) with 0.
    rewrite log2_loop_nonpos by lia. lia.
  - rewrite log2_loop_pos by (apply Z.pow_pos_nonneg; lia).
    replace (2 ^ Z.of_nat (S m) / 2) with (2 ^ Z.of_nat m).
    + rewrite IH. lia.
    + rewrite Nat2Z.inj_succ, Z.pow_succ_r by lia.
      rewrite Z.mul_comm, Z.div_mul by lia. reflexivity.
Qed.

(** [BigInteger::log2] is right on every power of two but the first. *)

Lemma log2_pow2 (k : nat) :
  (1 <= k)%nat -> BigInteger.log2 (2 ^ Z.of_nat k) = Z.of_nat k.
Proof.
  intros Hk. unfold BigInteger.log2.
  rewrite operator_shr_shiftr by reflexivity. change (Z.of_nat 1) with 1.
  rewrite Z.shiftr_div_pow2 by lia. change (2 ^ 1) with 2.
  destruct k as [| m]; [lia |].
  replace (2 ^ Z.of_nat (S m) / 2) with (2 ^ Z.of_nat m).
  - assert (Hp : 0 < 2 ^ Z.of_nat m) by (apply Z.pow_pos_nonneg; lia).
    unfold BigInteger.is_negative, BigInteger.is_zero, BigInteger.mpz_sgn.
    rewrite (Z.sgn_pos _ Hp). simpl.
    rewrite log2_loop_pow2. lia.
  - rewrite Nat2Z.inj_succ, Z.pow_succ_r by lia.
    rewrite Z.mul_comm, Z.div_mul by lia. reflexivity.
Qed.

Lemma bi_log2_loop_zero (fuel : nat) (pw : Z) :
  BigInteger.bi_log2_loop fuel 0 pw = None.
Proof.
  revert pw. induction fuel as [| fuel IH]; intro pw; [reflexivity |].
  simpl. apply IH.
Qed.

Lemma bi_log2_nonzero_half (fuel : nat) (n : Z) :
  Z.shiftr n 1 <> 0 -> BigInteger.bi_log2 (S fuel) n = Some 0.
Proof.
  intros Hn. unfold BigInteger.bi_log2. rewrite operator_shr_shiftr by reflexivity.
  change (Z.of_nat 1) with 1. simpl.
  rewrite bi_compare_0_char.
  destruct (Z.eqb_spec (Z.shiftr n 1) 0); [contradiction | reflexivity].
Qed.

Lemma bi_log2_pow2 (fuel k : nat) :
  (1 <= k)%nat -> BigInteger.bi_log2 (S fuel) (2 ^ Z.of_nat k) = Some 0.
Proof.
  intros Hk. apply bi_log2_nonzero_half.
  rewrite Z.shiftr_div_pow2 by lia. change (2 ^ 1) with 2.
  destruct k as [| m]; [lia |].
  rewrite Nat2Z.inj_succ, Z.pow_succ_r by lia.
  rewrite Z.mul_comm, Z.div_mul by lia.
  apply Z.pow_nonzero; lia.
Qed.

(** C8. On [2^0] the member [log2] returns [-1], and [bi_log2] never leaves
    its loop, whatever the number of rounds allowed; on [2^2] the loop of
    [bi_log2] is not entered and the result is [0].  The member [log2]
    returns [2] there. *)

Theorem log2_on_powers_of_two :
  BigInteger.log2 1 = -1 /\
  (forall fuel : nat, BigInteger.bi_log2 fuel 1 = None) /\
  (forall fuel : nat, BigInteger.bi_log2 (S fuel) 4 = Some 0) /\
  BigInteger.log2 4 = 2.
Proof.
  split; [reflexivity |].
  split; [intro fuel; apply bi_log2_loop_zero |].
  split; [intro fuel; exact (bi_log2_pow2 fuel 2 (le_S _ _ (le_n 1))) |].
  exact (log2_pow2 2 (le_S _ _ (le_n 1))).
Qed.

(** ** [RemovePower] *)

Lemma delete_bit_bits (perm : Z) (k : nat) :
  delete_bit perm k =
  Z.lor (Z.land perm (Z.ones (Z.of_nat k)))
        (Z.shiftl (Z.shiftr perm (Z.of_nat k + 1)) (Z.of_nat k)).
Proof.
  unfold delete_bit.
  rewrite Z.land_ones by lia.
  rewrite Z.shiftl_mul_pow2, Z.shiftr_div_pow2 by lia.
  rewrite (Z.mul_comm (perm / _)).
  rewrite <- Z.land_ones by lia.
  rewrite <- Z.shiftr_div_pow2, <- (Z.mul_comm (Z.shiftr _ _)), <- Z.shiftl_mul_pow2 by lia.
  rewrite <- Z.lxor_lor, <- Z.add_nocarry_lxor; try reflexivity.
  all: apply Z.bits_inj'; intros n Hn;
    rewrite Z.land_spec, Z.land_spec, Z.bits_0;
    destruct (Z.lt_ge_cases n (Z.of_nat k));
    [ rewrite Z.shiftl_spec_low by lia; apply andb_false_r
    | rewrite Z.ones_spec_high by lia; rewrite andb_false_r; reflexivity ].
Qed.

(** With a bitwise complement the expression of [RemovePower] deletes bit
    [k]: the low [k] bits stay and the bits above move down by one. *)

Lemma RemovePower_complement_deletes (perm : Z) (k : nat) :
  RemovePower_complement perm (2 ^ Z.of_nat k) = delete_bit perm k.
Proof.
  rewrite delete_bit_bits.
  unfold RemovePower_complement, BigInteger.bi_decrement,
    BigInteger.operator_sub_assign, BigInteger.mpz_sub_ui,
    BigInteger.operator_or, BigInteger.operator_and,
    BigInteger.mpz_ior, BigInteger.mpz_and.
  cbv zeta. rewrite operator_shr_shiftr by reflexivity. change (Z.of_nat 1) with 1.
  replace (2 ^ Z.of_nat k - 1) with (Z.ones (Z.of_nat k))
    by (rewrite Z.ones_equiv; lia).
  f_equal.
  apply Z.bits_inj'; intros n Hn.
  rewrite Z.land_spec, Z.lnot_spec, Z.shiftr_spec by lia.
  destruct (Z.lt_ge_cases n (Z.of_nat k)).
  - rewrite Z.ones_spec_low, Z.shiftl_spec_low by lia. apply andb_false_r.
  - rewrite Z.ones_spec_high, Z.shiftl_spec_high, Z.shiftr_spec by lia.
    simpl. rewrite andb_true_r. f_equal. lia.
Qed.

(** C9. [operator~] negates, so the mask of [RemovePower] is
    [-(power - 1)] and not the complement of [power - 1].  For [perm = 2]
    and [power = 2^1] the result is [1], where deleting bit 1 of [2] gives
    [0]; for [power = 2^0] the result is [0], where deleting bit 0 of [2]
    gives [1]. *)

Theorem RemovePower_with_negating_not :
  (forall x : Z, BigInteger.operator_not x = - x) /\
  RemovePower 2 (2 ^ 1) = 1 /\ delete_bit 2 1 = 0 /\
  RemovePower 2 (2 ^ 0) = 0 /\ delete_bit 2 0 = 1.
Proof.
  split.
  - intro x. unfold BigInteger.operator_not, BigInteger.mpz_mul_si. lia.
  - repeat split; reflexivity.
Qed.

(** ** Shard buffers and traversals *)

Section TraversalFacts.

Context {CFG : Config} {CO : ComplexOps} {CB : Collaborators}.

Lemma for_each_total {A St : Type} (f : A -> St -> St) (l : list A) (s : St) :
  for_each l (fun x s => Some (f x s)) s = Some (fold_left (fun s x => f x s) l s).
Proof.
  revert s. induction l as [| x l IH]; intro s; simpl; [reflexivity | apply IH].
Qed.

Lemma fold_left_through_map {A B St : Type} (f : St -> B -> St) (g : A -> B)
    (l : list A) (s : St) :
  fold_left f (map g l) s = fold_left (fun s x => f s (g x)) l s.
Proof.
  revert s. induction l as [| x l IH]; intro s; simpl; [reflexivity | apply IH].
Qed.

Lemma fold_left_pointwise {A St : Type} (f g : St -> A -> St) (l : list A) (s : St) :
  (forall s x, f s x = g s x) -> fold_left f l s = fold_left g l s.
Proof.
  intros Hfg. revert s.
  induction l as [| x l IH]; intro s; simpl; [reflexivity |].
  rewrite Hfg. apply IH.
Qed.

(** *** The descent of [GetTraversal] *)

Lemma GetTraversal_descend_path (i : Z) (steps : nat) :
  forall (j : nat) (leaf : QBdtNode) (scale : complex),
    GetTraversal_descend i j steps leaf scale =
    fold_left cmul (map node_scale (path_nodes i j steps leaf)) scale.
Proof.
  induction steps as [| steps IH]; intros j leaf scale; simpl; [reflexivity |].
  rewrite SelectBit_testbit.
  destruct (branches leaf (if Z.testbit i (Z.of_nat j) then 1 else 0)) as [c |];
    simpl; [apply IH | reflexivity].
Qed.

Lemma GetTraversal_amplitude_path (q : QBdt) (i : Z) :
  GetTraversal_amplitude q i = path_product (qubitCount q) (root q) i.
Proof. apply GetTraversal_descend_path. Qed.

(** *** The index handed to the callback *)

Lemma bitCapIntOcl_bits_range : 8 <= bitCapIntOcl_bits <= 64.
Proof.
  unfold bitCapIntOcl_bits.
  destruct (UINTPOW <? 4), (UINTPOW <? 5), (UINTPOW <? 6); lia.
Qed.

Lemma to_bitCapIntOcl_small (i : Z) :
  0 <= i < 2 ^ bitCapIntOcl_bits -> to_bitCapIntOcl i = i.
Proof.
  intros Hi. pose proof bitCapIntOcl_bits_range as Hb.
  unfold to_bitCapIntOcl, BigInteger.mpz_get_ui.
  assert (2 ^ bitCapIntOcl_bits <= 2 ^ 64) by (apply Z.pow_le_mono_r; lia).
  rewrite Z.abs_eq by lia.
  rewrite (Z.mod_small i (2 ^ 64)) by lia.
  apply Z.mod_small. lia.
Qed.

Lemma deliveries_exact (q : QBdt) :
  Z.of_nat (qubitCount q) <= bitCapIntOcl_bits ->
  deliveries q =
  map (fun i => (i, path_product (qubitCount q) (root q) i)) (seqZ 0 (maxQPower q)).
Proof.
  intros Hn. unfold deliveries. apply map_ext_in. intros i Hi.
  apply list_elem_of_In, elem_of_seqZ in Hi. unfold maxQPower in Hi.
  rewrite to_bitCapIntOcl_small; [reflexivity |].
  pose proof bitCapIntOcl_bits_range.
  assert (2 ^ Z.of_nat (qubitCount q) <= 2 ^ bitCapIntOcl_bits)
    by (apply Z.pow_le_mono_r; lia).
  lia.
Qed.

(** *** [FlushBuffers] and [DumpBuffers] *)

Lemma FlushBuffers_from (rest : list (option MpsShard)) :
  forall (done : list (option MpsShard)) (n : nat) (r : QBdtNode)
         (app : list (Mtrx * nat)),
    for_each (seq (length done) (length rest)) FlushBuffer
             (mkQBdt n r (done ++ rest) app) =
    Some (mkQBdt n (commit_all (pending_from (length done) rest) r)
                 (done ++ replicate (length rest) None)
                 (app ++ pending_from (length done) rest)).
Proof.
  induction rest as [| s rest IH]; intros done n r app.
  - simpl. now rewrite !app_nil_r.
  - cbn [length seq for_each]. unfold FlushBuffer at 1. cbn [shards].
    rewrite list_lookup_middle by reflexivity.
    assert (Hlen : S (length done) = length (done ++ [None (A:=MpsShard)]))
      by (rewrite length_app; simpl; lia).
    destruct s as [sh |].
    + unfold set_shard, ApplySingle. cbn [qubitCount root shards applied].
      rewrite insert_app_r_alt, Nat.sub_diag by lia. cbn [insert list_insert].
      rewrite (cons_middle None done rest), app_assoc, Hlen, IH.
      rewrite <- Hlen. cbn [pending_from replicate commit_all fold_left commit fst snd].
      now rewrite <- !app_assoc.
    + rewrite (cons_middle None done rest), app_assoc, Hlen, IH.
      rewrite <- Hlen. cbn [pending_from replicate].
      now rewrite <- !app_assoc.
Qed.

Lemma FlushBuffers_commits (q : QBdt) :
  FlushBuffers q =
  Some (mkQBdt (qubitCount q) (commit_all (pending (shards q)) (root q))
               (replicate (length (shards q)) None)
               (applied q ++ pending (shards q))).
Proof.
  destruct q as [n r sh app]. unfold FlushBuffers. cbn [shards qubitCount root applied].
  exact (FlushBuffers_from sh [] n r app).
Qed.

Lemma DumpBuffers_from (rest : list (option MpsShard)) :
  forall (done : list (option MpsShard)) (n : nat) (r : QBdtNode)
         (app : list (Mtrx * nat)),
    fold_left (fun q i => set_shard i None q) (seq (length done) (length rest))
              (mkQBdt n r (done ++ rest) app) =
    mkQBdt n r (done ++ replicate (length rest) None) app.
Proof.
  induction rest as [| s rest IH]; intros done n r app.
  - reflexivity.
  - cbn [length seq fold_left]. unfold set_shard at 2.
    cbn [qubitCount root shards applied].
    rewrite insert_app_r_alt, Nat.sub_diag by lia. cbn [insert list_insert].
    assert (Hlen : S (length done) = length (done ++ [None (A:=MpsShard)]))
      by (rewrite length_app; simpl; lia).
    rewrite (cons_middle None done rest), app_assoc, Hlen, IH.
    cbn [replicate]. now rewrite <- !app_assoc.
Qed.

Lemma DumpBuffers_discards (q : QBdt) :
  DumpBuffers q =
  mkQBdt (qubitCount q) (root q) (replicate (length (shards q)) None) (applied q).
Proof.
  destruct q as [n r sh app]. unfold DumpBuffers. cbn [shards qubitCount root applied].
  exact (DumpBuffers_from sh [] n r app).
Qed.

(** *** The read traversal *)

Lemma GetTraversal_run {Sink : Type} (getLambda : Z -> complex -> Sink -> Sink)
    (q q1 : QBdt) (sink : Sink) :
  FlushBuffers q = Some q1 ->
  GetTraversal getLambda q sink = Some (q1, deliver getLambda (deliveries q1) sink).
Proof.
  intros Hf. unfold GetTraversal. rewrite Hf. unfold par_for.
  rewrite (for_each_total
             (fun i s => getLambda (to_bitCapIntOcl i) (GetTraversal_amplitude q1 i) s)).
  unfold deliver, deliveries. rewrite fold_left_through_map. do 2 f_equal.
  apply fold_left_pointwise. intros s i. cbn [fst snd].
  now rewrite GetTraversal_amplitude_path.
Qed.

(** C2. [GetTraversal] first commits every pending buffer, in qubit order,
    and leaves none pending; it then hands to the sink, for every
    permutation index [i] of [0, 2^n), the index (as a [bitCapIntOcl]) and
    the product of the scales along the path that the bits of [i] select in
    the flushed tree, a null branch ending the path.  When the register has
    no more qubits than [bitCapIntOcl] has bits, the index handed over is
    [i] itself. *)

Theorem GetTraversal_delivers_path_products {Sink : Type}
    (getLambda : Z -> complex -> Sink -> Sink) (q : QBdt) (sink : Sink) :
  exists q1 : QBdt,
    FlushBuffers q = Some q1 /\
    qubitCount q1 = qubitCount q /\
    shards q1 = replicate (length (shards q)) None /\
    applied q1 = applied q ++ pending (shards q) /\
    root q1 = commit_all (pending (shards q)) (root q) /\
    GetTraversal getLambda q sink =
      Some (q1, deliver getLambda
                  (map (fun i => (to_bitCapIntOcl i,
                                  path_product (qubitCount q) (root q1) i))
                       (seqZ 0 (2 ^ Z.of_nat (qubitCount q))))
                  sink) /\
    (Z.of_nat (qubitCount q) <= bitCapIntOcl_bits ->
     GetTraversal getLambda q sink =
       Some (q1, deliver getLambda
                   (map (fun i => (i, path_product (qubitCount q) (root q1) i))
                        (seqZ 0 (2 ^ Z.of_nat (qubitCount q))))
                   sink)).
Proof.
  eexists. split; [apply FlushBuffers_commits |].
  repeat (split; [reflexivity |]).
  split.
  - rewrite (GetTraversal_run getLambda q _ sink (FlushBuffers_commits q)).
    reflexivity.
  - intros Hn.
    rewrite (GetTraversal_run getLambda q _ sink (FlushBuffers_commits q)).
    rewrite deliveries_exact by exact Hn. reflexivity.
Qed.

(** *** Controls and targets *)

Lemma blocked_nil (sh : list (option MpsShard)) (c : nat) : blocked [] sh c = false.
Proof.
  unfold blocked. rewrite bool_decide_eq_false_2; [reflexivity | apply not_elem_of_nil].
Qed.

Lemma blocked_cons_idle (c0 : nat) (rest : list nat) (sh : list (option MpsShard))
    (c : nat) :
  blocked [c0] sh c0 = false -> blocked (c0 :: rest) sh c = blocked rest sh c.
Proof.
  unfold blocked. intros Hidle.
  rewrite bool_decide_eq_true_2 in Hidle by apply list_elem_of_here.
  cbn [andb] in Hidle.
  destruct (decide (c = c0)) as [-> | Hne].
  - rewrite Hidle. now rewrite !andb_false_r.
  - f_equal. apply bool_decide_ext. rewrite elem_of_cons. tauto.
Qed.

Lemma blocked_cons_flushed (c0 : nat) (rest : list nat) (sh : list (option MpsShard))
    (s : MpsShard) (c : nat) :
  sh !! c0 = Some (Some s) -> IsPhase s = false ->
  blocked (c0 :: rest) sh c =
  if decide (c = c0) then true else blocked rest (<[c0 := None]> sh) c.
Proof.
  intros Hs Hp. unfold blocked.
  destruct (decide (c = c0)) as [-> | Hne].
  - rewrite bool_decide_eq_true_2 by apply list_elem_of_here.
    now rewrite Hs, Hp.
  - rewrite list_lookup_insert_ne by congruence.
    f_equal. apply bool_decide_ext. rewrite elem_of_cons. tauto.
Qed.

Lemma blocked_after_flush (c0 : nat) (rest : list nat) (sh : list (option MpsShard)) :
  (c0 < length sh)%nat -> blocked rest (<[c0 := None]> sh) c0 = false.
Proof.
  intros Hlt. unfold blocked. rewrite list_lookup_insert_eq by exact Hlt.
  apply andb_false_r.
Qed.

Lemma FlushIfBlocked_controls_inv (controls : list nat) :
  forall q : QBdt,
    Forall (fun c => (c < length (shards q))%nat) controls ->
    exists (q' : QBdt) (new : list (Mtrx * nat)),
      FlushIfBlocked_controls controls q = Some q' /\
      qubitCount q' = qubitCount q /\
      length (shards q') = length (shards q) /\
      applied q' = applied q ++ new /\
      root q' = commit_all new (root q) /\
      (forall c, shards q' !! c =
                 if blocked controls (shards q) c then Some None else shards q !! c) /\
      (forall m c, (m, c) ∈ new <->
                   blocked controls (shards q) c = true /\
                   exists s, shards q !! c = Some (Some s) /\ m = gate s).
Proof.
  induction controls as [| c0 rest IH]; intros q Hall.
  - exists q, []. unfold FlushIfBlocked_controls, commit_all. cbn [for_each fold_left].
    rewrite app_nil_r.
    do 5 (split; [reflexivity |]). split.
    + intro c. now rewrite blocked_nil.
    + intros m c. rewrite blocked_nil. split.
      * intros Hin. now apply elem_of_nil in Hin.
      * intros [Hb _]. discriminate.
  - inversion Hall as [| c0' rest' Hc0 Hrest]; subst c0' rest'.
    assert (Hidle_case :
      blocked [c0] (shards q) c0 = false ->
      flush_if_not_phase c0 q = Some q ->
      exists (q' : QBdt) (new : list (Mtrx * nat)),
        FlushIfBlocked_controls (c0 :: rest) q = Some q' /\
        qubitCount q' = qubitCount q /\
        length (shards q') = length (shards q) /\
        applied q' = applied q ++ new /\
        root q' = commit_all new (root q) /\
        (forall c, shards q' !! c =
           if blocked (c0 :: rest) (shards q) c then Some None else shards q !! c) /\
        (forall m c, (m, c) ∈ new <->
           blocked (c0 :: rest) (shards q) c = true /\
           exists s, shards q !! c = Some (Some s) /\ m = gate s)).
    { intros Hidle Hstep.
      destruct (IH q Hrest) as (q' & new & Hrun & Hn & Hl & Ha & Hr & Hs & Hnew).
      exists q', new. unfold FlushIfBlocked_controls. cbn [for_each].
      rewrite Hstep. split; [exact Hrun |].
      repeat (split; [assumption |]). split.
      - intro c. rewrite (blocked_cons_idle c0 rest _ c Hidle). apply Hs.
      - intros m c. rewrite (blocked_cons_idle c0 rest _ c Hidle). apply Hnew. }
    destruct (shards q !! c0) as [[s |] |] eqn:E.
    + destruct (IsPhase s) eqn:P.
      * apply Hidle_case.
        -- unfold blocked. rewrite E, P. apply andb_false_r.
        -- unfold flush_if_not_phase. now rewrite E, P.
      * clear Hidle_case.
        set (q1 := ApplySingle (gate s) c0 (set_shard c0 None q)).
        assert (Hrest1 : Forall (fun c => (c < length (shards q1))%nat) rest).
        { subst q1. cbn [ApplySingle set_shard shards]. now rewrite length_insert. }
        destruct (IH q1 Hrest1) as (q' & new & Hrun & Hn & Hl & Ha & Hr & Hs & Hnew).
        exists q', ((gate s, c0) :: new).
        unfold FlushIfBlocked_controls. cbn [for_each].
        unfold flush_if_not_phase. rewrite E, P. cbn [negb]. fold q1.
        split; [exact Hrun |].
        split; [exact Hn |].
        split; [rewrite Hl; subst q1; cbn [ApplySingle set_shard shards];
                apply length_insert |].
        split; [rewrite Ha; subst q1; cbn [ApplySingle applied set_shard];
                now rewrite <- app_assoc |].
        split; [exact Hr |].
        split.
        -- intro c. rewrite (blocked_cons_flushed c0 rest _ s c E P).
           rewrite Hs. subst q1. cbn [ApplySingle set_shard shards].
           destruct (decide (c = c0)) as [-> | Hne].
           ++ rewrite blocked_after_flush by exact Hc0.
              now rewrite list_lookup_insert_eq by exact Hc0.
           ++ now rewrite list_lookup_insert_ne by congruence.
        -- intros m c. rewrite (blocked_cons_flushed c0 rest _ s c E P).
           rewrite elem_of_cons, Hnew. subst q1. cbn [ApplySingle set_shard shards].
           destruct (decide (c = c0)) as [-> | Hne].
           ++ rewrite blocked_after_flush by exact Hc0. split.
              ** intros [Heq | [Hb _]]; [| discriminate].
                 injection Heq as ->. split; [reflexivity | now exists s].
              ** intros [_ (s' & Hs' & ->)]. left. congruence.
           ++ rewrite list_lookup_insert_ne by congruence. split.
              ** intros [Heq | H]; [congruence | exact H].
              ** intros H. right. exact H.
    + apply Hidle_case.
      * unfold blocked. rewrite E. apply andb_false_r.
      * unfold flush_if_not_phase. now rewrite E.
    + apply lookup_ge_None in E. lia.
Qed.

Lemma FlushBuffer_inv (t : nat) (q : QBdt) :
  (t < length (shards q))%nat ->
  exists (q' : QBdt) (new : list (Mtrx * nat)),
    FlushBuffer t q = Some q' /\
    qubitCount q' = qubitCount q /\
    shards q' = <[t := None]> (shards q) /\
    applied q' = applied q ++ new /\
    root q' = commit_all new (root q) /\
    (forall m c, (m, c) ∈ new <->
                 c = t /\ exists s, shards q !! t = Some (Some s) /\ m = gate s).
Proof.
  intros Hlt. unfold FlushBuffer.
  destruct (shards q !! t) as [[s |] |] eqn:E.
  - exists (ApplySingle (gate s) t (set_shard t None q)), [(gate s, t)].
    do 5 (split; [reflexivity |]).
    intros m c. rewrite list_elem_of_singleton. split.
    + intros Heq. injection Heq as -> ->. split; [reflexivity | now exists s].
    + intros [-> (s' & Hs' & ->)]. congruence.
  - exists q, []. split; [reflexivity |]. split; [reflexivity |].
    split; [symmetry; now apply list_insert_id |].
    split; [now rewrite app_nil_r |]. split; [reflexivity |].
    intros m c. split.
    + intros Hin. now apply elem_of_nil in Hin.
    + intros [_ (s & Hs & _)]. discriminate.
  - apply lookup_ge_None in E. lia.
Qed.

(** [FlushNonPhaseBuffers] is [FlushIfBlocked] with every qubit as a
    control. *)

Lemma FlushNonPhaseBuffers_all_controls (q : QBdt) :
  FlushNonPhaseBuffers q = FlushIfBlocked_controls (seq 0 (length (shards q))) q.
Proof. reflexivity. Qed.

(** C3. After [FlushIfBlocked(target, controls)], with [new] the
    [ApplySingle] calls it made: the target has no pending buffer, and a
    buffer it had was committed; a control other than the target has had its
    pending buffer committed and cleared if and only if that buffer is not a
    phase gate, a phase buffer staying in place uncommitted; no other qubit
    is touched. *)

Theorem FlushIfBlocked_control_and_target (q : QBdt) (target : nat)
    (controls : list nat) :
  (target < length (shards q))%nat ->
  Forall (fun c => (c < length (shards q))%nat) controls ->
  exists (q' : QBdt) (new : list (Mtrx * nat)),
    FlushIfBlocked target controls q = Some q' /\
    applied q' = applied q ++ new /\
    root q' = commit_all new (root q) /\
    shards q' !! target = Some None /\
    (forall s, shards q !! target = Some (Some s) -> (gate s, target) ∈ new) /\
    (forall c s,
        c ∈ controls -> c <> target -> shards q !! c = Some (Some s) ->
        ((shards q' !! c = Some None /\ (gate s, c) ∈ new) <-> IsPhase s = false) /\
        (IsPhase s = true ->
         shards q' !! c = Some (Some s) /\ forall m, (m, c) ∉ new)) /\
    (forall c,
        c ∉ controls -> c <> target ->
        shards q' !! c = shards q !! c /\ forall m, (m, c) ∉ new).
Proof.
  intros Ht Hcs.
  destruct (FlushIfBlocked_controls_inv controls q Hcs)
    as (q1 & new1 & Hrun1 & Hn1 & Hl1 & Ha1 & Hr1 & Hs1 & Hnew1).
  assert (Ht1 : (target < length (shards q1))%nat) by (rewrite Hl1; exact Ht).
  destruct (FlushBuffer_inv target q1 Ht1)
    as (q' & new2 & Hrun2 & Hn2 & Hs2 & Ha2 & Hr2 & Hnew2).
  exists q', (new1 ++ new2).
  assert (Hother : forall c, c <> target -> shards q' !! c = shards q1 !! c).
  { intros c Hne. rewrite Hs2. now apply list_lookup_insert_ne. }
  assert (Hmem : forall m c, c <> target -> (m, c) ∈ new1 ++ new2 <-> (m, c) ∈ new1).
  { intros m c Hne. rewrite elem_of_app, Hnew2. tauto. }
  split; [unfold FlushIfBlocked; now rewrite Hrun1 |].
  split; [rewrite Ha2, Ha1; now rewrite app_assoc |].
  split; [rewrite Hr2, Hr1; unfold commit_all; now rewrite fold_left_app |].
  split; [rewrite Hs2; now apply list_lookup_insert_eq |].
  split; [| split].
  - intros s Hs. rewrite elem_of_app.
    destruct (blocked controls (shards q) target) eqn:Hb.
    + left. apply Hnew1. split; [exact Hb | now exists s].
    + right. apply Hnew2. split; [reflexivity |].
      exists s. split; [| reflexivity].
      rewrite Hs1, Hb. exact Hs.
  - intros c s Hin Hne Hs.
    assert (Hb : blocked controls (shards q) c = negb (IsPhase s)).
    { unfold blocked. rewrite bool_decide_eq_true_2 by exact Hin. now rewrite Hs. }
    destruct (IsPhase s) eqn:P; cbn [negb] in Hb.
    + assert (Hq : shards q' !! c = Some (Some s))
        by (rewrite (Hother c Hne), Hs1, Hb; exact Hs).
      assert (Hno : forall m, (m, c) ∉ new1 ++ new2).
      { intros m Hm. apply (Hmem m c Hne), Hnew1 in Hm.
        destruct Hm as [Hm _]. congruence. }
      split.
      * split; [intros [Hq' _]; congruence | discriminate].
      * intros _. now split.
    + assert (Hq : shards q' !! c = Some None)
        by (rewrite (Hother c Hne), Hs1, Hb; reflexivity).
      assert (Hin' : (gate s, c) ∈ new1 ++ new2).
      { apply (Hmem _ c Hne), Hnew1. split; [exact Hb | now exists s]. }
      split.
      * split; [intros _; reflexivity | intros _; now split].
      * discriminate.
  - intros c Hnin Hne.
    assert (Hb : blocked controls (shards q) c = false).
    { unfold blocked. now rewrite bool_decide_eq_false_2 by exact Hnin. }
    rewrite (Hother c Hne), Hs1, Hb. split; [reflexivity |].
    intros m Hm. apply (Hmem m c Hne), Hnew1 in Hm. rewrite Hb in Hm.
    destruct Hm as [Hm _]. discriminate.
Qed.

(** *** The write traversal *)

Lemma for_each_invariant {A St : Type} (P : St -> Prop) (body : A -> St -> option St)
    (l : list A) (s : St) :
  P s ->
  (forall x s, P s -> exists s', body x s = Some s' /\ P s') ->
  exists s', for_each l body s = Some s' /\ P s'.
Proof.
  intros Hs Hstep. revert s Hs.
  induction l as [| x l IH]; intros s Hs; cbn [for_each].
  - now exists s.
  - destruct (Hstep x s Hs) as (s1 & -> & Hs1). now apply IH.
Qed.

Lemma SetTraversal_descend_expanded (i : Z) (f : QBdtNode -> QBdtNode) (steps : nat) :
  forall (j : nat) (t : QBdtNode),
    expanded steps t ->
    exists t', SetTraversal_descend i j steps f t = Some t' /\ expanded steps t'.
Proof.
  induction steps as [| steps IH]; intros j t Ht; cbn [SetTraversal_descend].
  - now exists (f t).
  - destruct t as [s [b0 |] [b1 |]]; cbn [expanded] in Ht; try contradiction.
    destruct Ht as [H0 H1]. cbn [branches set_branch].
    destruct (SelectBit i j =? 0).
    + destruct (IH (S j) b0 H0) as (t' & -> & Ht').
      exists (mkNode s (Some t') (Some b1)). now split.
    + destruct (IH (S j) b1 H1) as (t' & -> & Ht').
      exists (mkNode s (Some b0) (Some t')). now split.
Qed.

Lemma SetTraversal_buffers (setLambda : Z -> QBdtNode -> QBdtNode) (q q' : QBdt) :
  SetTraversal setLambda q = Some q' ->
  shards q' = replicate (length (shards q)) None /\ applied q' = applied q.
Proof.
  unfold SetTraversal. rewrite DumpBuffers_discards. cbn [qubitCount].
  destruct (par_for _ _ _) as [root2 |]; [| discriminate].
  intros Heq. injection Heq as <-. now split.
Qed.

Lemma SetTraversal_returns (setLambda : Z -> QBdtNode -> QBdtNode) (q : QBdt) :
  expanded (qubitCount q) (Branch (qubitCount q) new_QBdtNode) ->
  exists q', SetTraversal setLambda q = Some q'.
Proof.
  intros Hexp. unfold SetTraversal. rewrite DumpBuffers_discards. cbn [qubitCount].
  unfold par_for.
  destruct (for_each_invariant (expanded (qubitCount q))
              (fun i r => SetTraversal_descend i 0 (qubitCount q)
                            (setLambda (to_bitCapIntOcl i)) r)
              (seqZ 0 (maxQPower
                         (mkQBdt (qubitCount q) (root q)
                                 (replicate (length (shards q)) None) (applied q))))
              _ Hexp) as (root2 & -> & _).
  - intros i r Hr. now apply SetTraversal_descend_expanded.
  - eauto.
Qed.

(** The tree that [SetTraversal] installs owes nothing to the tree or the
    buffers it replaces. *)

Lemma SetTraversal_root_fresh (setLambda : Z -> QBdtNode -> QBdtNode)
    (q1 q2 q1' q2' : QBdt) :
  qubitCount q1 = qubitCount q2 ->
  SetTraversal setLambda q1 = Some q1' ->
  SetTraversal setLambda q2 = Some q2' ->
  root q1' = root q2'.
Proof.
  unfold SetTraversal. rewrite !DumpBuffers_discards. cbn [qubitCount].
  unfold maxQPower. cbn [qubitCount]. intros ->.
  destruct (par_for _ _ _) as [root2 |]; [| discriminate].
  intros H1 H2. injection H1 as <-. injection H2 as <-. reflexivity.
Qed.

(** *** Leaf addressing in the two directions *)

Lemma branches_set_branch_same (t : QBdtNode) (k : Z) (c : QBdtNode) :
  branches (set_branch t k c) k = Some c.
Proof. destruct t as [s b0 b1]. cbn. destruct (k =? 0) eqn:E; cbn; now rewrite E. Qed.

Lemma branches_set_branch_other (t : QBdtNode) (k k' : Z) (c : QBdtNode) :
  (k =? 0) <> (k' =? 0) -> branches (set_branch t k c) k' = branches t k'.
Proof.
  destruct t as [s b0 b1]. cbn.
  destruct (k =? 0) eqn:E, (k' =? 0) eqn:E'; cbn; rewrite ?E'; congruence.
Qed.

Lemma SelectBit_eqb_0 (i : Z) (j : nat) :
  (SelectBit i j =? 0) = negb (Z.testbit i (Z.of_nat j)).
Proof. rewrite SelectBit_testbit. now destruct (Z.testbit i (Z.of_nat j)). Qed.

(** The write callback for index [i] reaches the leaf that the read descent
    for [i] reaches, and writes there. *)

Lemma SetTraversal_descend_writes (i : Z) (f : QBdtNode -> QBdtNode) (steps : nat) :
  forall (j : nat) (t t' : QBdtNode),
    SetTraversal_descend i j steps f t = Some t' ->
    exists l, leaf_at i j steps t = Some l /\ leaf_at i j steps t' = Some (f l).
Proof.
  induction steps as [| steps IH]; intros j t t' Hrun; cbn [SetTraversal_descend] in Hrun.
  - injection Hrun as <-. now exists t.
  - cbn [leaf_at]. rewrite <- !SelectBit_testbit.
    destruct (branches t (SelectBit i j)) as [c |]; [| discriminate].
    destruct (SetTraversal_descend i (S j) steps f c) as [c' |] eqn:Hc; [| discriminate].
    injection Hrun as <-. rewrite branches_set_branch_same. now apply IH.
Qed.

(** It leaves alone the leaf of every index that differs from [i] in one of
    the bits the descent looks at. *)

Lemma SetTraversal_descend_keeps (i i' : Z) (f : QBdtNode -> QBdtNode) (steps : nat) :
  forall (j : nat) (t t' : QBdtNode),
    SetTraversal_descend i j steps f t = Some t' ->
    ~ (forall k : nat, (j <= k < j + steps)%nat ->
                       Z.testbit i (Z.of_nat k) = Z.testbit i' (Z.of_nat k)) ->
    leaf_at i' j steps t' = leaf_at i' j steps t.
Proof.
  induction steps as [| steps IH]; intros j t t' Hrun Hdiff;
    cbn [SetTraversal_descend] in Hrun.
  - exfalso. apply Hdiff. intros k Hk. lia.
  - cbn [leaf_at]. rewrite <- !SelectBit_testbit.
    destruct (branches t (SelectBit i j)) as [c |] eqn:Hb; [| discriminate].
    destruct (SetTraversal_descend i (S j) steps f c) as [c' |] eqn:Hc; [| discriminate].
    injection Hrun as <-.
    destruct (Bool.bool_dec (Z.testbit i (Z.of_nat j)) (Z.testbit i' (Z.of_nat j)))
      as [Hsame | Hother].
    + assert (Hsel : SelectBit i' j = SelectBit i j)
        by (rewrite !SelectBit_testbit; now rewrite Hsame).
      rewrite Hsel, branches_set_branch_same, Hb.
      apply (IH (S j) c c' Hc). intros Hall. apply Hdiff. intros k Hk.
      destruct (Nat.eq_dec k j) as [-> | Hne]; [exact Hsame | apply Hall; lia].
    + rewrite branches_set_branch_other; [reflexivity |].
      rewrite !SelectBit_eqb_0. intros Heq. apply Hother.
      now destruct (Z.testbit i (Z.of_nat j)), (Z.testbit i' (Z.of_nat j)).
Qed.

Lemma low_bits_determine (n : nat) (a b : Z) :
  0 <= a < 2 ^ Z.of_nat n -> 0 <= b < 2 ^ Z.of_nat n ->
  (forall k : nat, (0 <= k < 0 + n)%nat ->
                   Z.testbit a (Z.of_nat k) = Z.testbit b (Z.of_nat k)) ->
  a = b.
Proof.
  intros Ha Hb Hbits. apply Z.bits_inj'. intros k Hk.
  destruct (Z.lt_ge_cases k (Z.of_nat n)) as [Hlt | Hge].
  - rewrite <- (Z2Nat.id k Hk). apply Hbits. lia.
  - rewrite <- (Z.mod_small a (2 ^ Z.of_nat n)), <- (Z.mod_small b (2 ^ Z.of_nat n))
      by assumption.
    now rewrite !Z.mod_pow2_bits_high by lia.
Qed.

Lemma assign_loop_keeps (n : nat) (state : Z -> complex) (i' : Z) (l : list Z) :
  forall t t' : QBdtNode,
    for_each l (fun i r => SetTraversal_descend i 0 n (set_scale (state i)) r) t = Some t' ->
    Forall (fun i => ~ (forall k : nat, (0 <= k < 0 + n)%nat ->
                          Z.testbit i (Z.of_nat k) = Z.testbit i' (Z.of_nat k))) l ->
    leaf_at i' 0 n t' = leaf_at i' 0 n t.
Proof.
  induction l as [| i l IH]; intros t t' Hrun Hall; cbn [for_each] in Hrun.
  - now injection Hrun as <-.
  - inversion Hall as [| i0 l0 Hi Hl]; subst i0 l0.
    destruct (SetTraversal_descend i 0 n (set_scale (state i)) t) as [t1 |] eqn:Ht1;
      [| discriminate].
    rewrite (IH t1 t' Hrun Hl).
    exact (SetTraversal_descend_keeps i i' _ n 0 t t1 Ht1 Hi).
Qed.

(** After the loop of [SetTraversal] over the indices of [0, 2^n), run with
    the callback of [SetQuantumState], the leaf that the read descent
    reaches for [i'] carries the amplitude given for [i']. *)

Lemma assign_loop_writes (n : nat) (state : Z -> complex) (i' : Z) (l : list Z) :
  forall t t' : QBdtNode,
    for_each l (fun i r => SetTraversal_descend i 0 n (set_scale (state i)) r) t = Some t' ->
    Forall (fun i => 0 <= i < 2 ^ Z.of_nat n) l ->
    0 <= i' < 2 ^ Z.of_nat n ->
    i' ∈ l ->
    exists leaf, leaf_at i' 0 n t' = Some leaf /\ node_scale leaf = state i'.
Proof.
  induction l as [| i l IH]; intros t t' Hrun Hrange Hi' Hin; cbn [for_each] in Hrun.
  - now apply elem_of_nil in Hin.
  - inversion Hrange as [| i0 l0 Hi Hl]; subst i0 l0.
    destruct (SetTraversal_descend i 0 n (set_scale (state i)) t) as [t1 |] eqn:Ht1;
      [| discriminate].
    destruct (decide (i' ∈ l)) as [Hlater | Hnot].
    + exact (IH t1 t' Hrun Hl Hi' Hlater).
    + apply elem_of_cons in Hin as [-> | Hin]; [| contradiction].
      destruct (SetTraversal_descend_writes i _ n 0 t t1 Ht1) as (leaf & _ & Hleaf).
      exists (set_scale (state i) leaf). split; [| now destruct leaf].
      rewrite <- Hleaf. apply (assign_loop_keeps n state i l t1 t' Hrun).
      apply Forall_forall. intros i0 Hi0 Hsame.
      apply Hnot. rewrite Forall_forall in Hl.
      rewrite <- (low_bits_determine n i0 i (Hl i0 Hi0) Hi' Hsame).
      apply list_elem_of_In. exact Hi0.
Qed.

(** The last node on the read path is the leaf. *)

Lemma path_nodes_last (i : Z) (steps : nat) :
  forall (j : nat) (t leaf : QBdtNode),
    leaf_at i j (S steps) t = Some leaf ->
    exists before, path_nodes i j (S steps) t = before ++ [leaf].
Proof.
  induction steps as [| steps IH]; intros j t leaf Hleaf.
  - cbn [leaf_at path_nodes] in *.
    destruct (branches t _) as [c |]; [| discriminate].
    injection Hleaf as ->. now exists [].
  - cbn [leaf_at] in Hleaf. cbn [path_nodes].
    destruct (branches t (if Z.testbit i (Z.of_nat j) then 1 else 0)) as [c |];
      [| discriminate].
    destruct (IH (S j) c leaf Hleaf) as (before & Hpath).
    exists (c :: before). cbn [app]. f_equal. exact Hpath.
Qed.

(** Together: after the assignment loop of [SetQuantumState] on an expanded
    tree, the read descent for an index of [0, 2^n), [n >= 1], ends on a
    leaf whose scale is the amplitude given for that index, so that the
    product [GetTraversal] delivers has that amplitude as its last factor. *)

Lemma assign_loop_read_back (n : nat) (state : Z -> complex) (t t' : QBdtNode) (i : Z) :
  par_for (2 ^ Z.of_nat (S n))
          (fun i r => SetTraversal_descend i 0 (S n) (set_scale (state i)) r) t = Some t' ->
  0 <= i < 2 ^ Z.of_nat (S n) ->
  exists before,
    GetTraversal_descend i 0 (S n) t' (node_scale t') =
    cmul (fold_left cmul (map node_scale before) (node_scale t')) (state i).
Proof.
  intros Hrun Hi. unfold par_for in Hrun.
  destruct (assign_loop_writes (S n) state i _ t t' Hrun) as (leaf & Hleaf & Hscale).
  - apply Forall_forall. intros x Hx.
    apply list_elem_of_In, elem_of_seqZ in Hx. lia.
  - exact Hi.
  - apply elem_of_seqZ. lia.
  - destruct (path_nodes_last i n 0 t' leaf Hleaf) as (before & Hpath).
    exists before. rewrite GetTraversal_descend_path, Hpath.
    rewrite map_app, fold_left_app. cbn [map fold_left]. now rewrite Hscale.
Qed.

(** *** The two traversals and the pending buffers *)

(** The write callback changes no scale above the leaves. *)

Lemma node_scale_set_branch (t : QBdtNode) (k : Z) (c : QBdtNode) :
  node_scale (set_branch t k c) = node_scale t.
Proof. destruct t as [s b0 b1]. cbn. now destruct (k =? 0). Qed.

Lemma SetTraversal_descend_inner (i i' : Z) (f : QBdtNode -> QBdtNode) (steps : nat) :
  forall (j : nat) (t t' : QBdtNode) (m : nat),
    SetTraversal_descend i j steps f t = Some t' ->
    (m < steps)%nat ->
    option_map node_scale (leaf_at i' j m t') = option_map node_scale (leaf_at i' j m t).
Proof.
  induction steps as [| steps IH]; intros j t t' m Hrun Hm; [lia |].
  cbn [SetTraversal_descend] in Hrun.
  destruct (branches t (SelectBit i j)) as [c |] eqn:Hb; [| discriminate].
  destruct (SetTraversal_descend i (S j) steps f c) as [c' |] eqn:Hc; [| discriminate].
  injection Hrun as <-.
  destruct m as [| m]; cbn [leaf_at option_map].
  - now rewrite node_scale_set_branch.
  - rewrite <- !SelectBit_testbit.
    destruct (Bool.bool_dec (Z.testbit i (Z.of_nat j)) (Z.testbit i' (Z.of_nat j)))
      as [Hsame | Hother].
    + assert (Hsel : SelectBit i' j = SelectBit i j)
        by (rewrite !SelectBit_testbit; now rewrite Hsame).
      rewrite Hsel, branches_set_branch_same, Hb.
      apply (IH (S j) c c' m Hc). lia.
    + rewrite branches_set_branch_other; [reflexivity |].
      rewrite !SelectBit_eqb_0. intros Heq. apply Hother.
      now destruct (Z.testbit i (Z.of_nat j)), (Z.testbit i' (Z.of_nat j)).
Qed.

Lemma write_loop_inner (n : nat) (f : Z -> QBdtNode -> QBdtNode) (i' : Z) (m : nat)
    (l : list Z) :
  forall t t' : QBdtNode,
    for_each l (fun i r => SetTraversal_descend i 0 n (f i) r) t = Some t' ->
    (m < n)%nat ->
    option_map node_scale (leaf_at i' 0 m t') = option_map node_scale (leaf_at i' 0 m t).
Proof.
  induction l as [| i l IH]; intros t t' Hrun Hm; cbn [for_each] in Hrun.
  - now injection Hrun as <-.
  - destruct (SetTraversal_descend i 0 n (f i) t) as [t1 |] eqn:Ht1; [| discriminate].
    rewrite (IH t1 t' Hrun Hm).
    exact (SetTraversal_descend_inner i i' _ n 0 t t1 m Ht1 Hm).
Qed.

Lemma write_loop_keeps (n : nat) (f : Z -> QBdtNode -> QBdtNode) (i' : Z) (l : list Z) :
  forall t t' : QBdtNode,
    for_each l (fun i r => SetTraversal_descend i 0 n (f i) r) t = Some t' ->
    Forall (fun i => ~ (forall k : nat, (0 <= k < 0 + n)%nat ->
                          Z.testbit i (Z.of_nat k) = Z.testbit i' (Z.of_nat k))) l ->
    leaf_at i' 0 n t' = leaf_at i' 0 n t.
Proof.
  induction l as [| i l IH]; intros t t' Hrun Hall; cbn [for_each] in Hrun.
  - now injection Hrun as <-.
  - inversion Hall as [| i0 l0 Hi Hl]; subst i0 l0.
    destruct (SetTraversal_descend i 0 n (f i) t) as [t1 |] eqn:Ht1; [| discriminate].
    rewrite (IH t1 t' Hrun Hl).
    exact (SetTraversal_descend_keeps i i' _ n 0 t t1 Ht1 Hi).
Qed.

(** A loop over indices of [0, 2^n) without repetition leaves, at the leaf
    of each index it visits, what the callback made of the leaf that was
    there before the loop. *)

Lemma write_loop_writes (n : nat) (f : Z -> QBdtNode -> QBdtNode) (i' : Z) (l : list Z) :
  forall t t' : QBdtNode,
    for_each l (fun i r => SetTraversal_descend i 0 n (f i) r) t = Some t' ->
    Forall (fun i => 0 <= i < 2 ^ Z.of_nat n) l ->
    NoDup l ->
    0 <= i' < 2 ^ Z.of_nat n ->
    i' ∈ l ->
    exists before : QBdtNode,
      leaf_at i' 0 n t = Some before /\ leaf_at i' 0 n t' = Some (f i' before).
Proof.
  induction l as [| i l IH]; intros t t' Hrun Hrange Hnd Hi' Hin; cbn [for_each] in Hrun.
  - now apply elem_of_nil in Hin.
  - inversion Hrange as [| i0 l0 Hi Hl]; subst i0 l0.
    inversion Hnd as [| i0 l0 Hfresh Hnd']; subst i0 l0.
    destruct (SetTraversal_descend i 0 n (f i) t) as [t1 |] eqn:Ht1; [| discriminate].
    assert (Hfar : forall a b : Z,
               0 <= a < 2 ^ Z.of_nat n -> 0 <= b < 2 ^ Z.of_nat n -> a <> b ->
               ~ (forall k : nat, (0 <= k < 0 + n)%nat ->
                     Z.testbit a (Z.of_nat k) = Z.testbit b (Z.of_nat k))).
    { intros a b Ha Hb Hne Hsame. apply Hne.
      exact (low_bits_determine n a b Ha Hb Hsame). }
    apply elem_of_cons in Hin as [-> | Hin].
    + destruct (SetTraversal_descend_writes i _ n 0 t t1 Ht1) as (before & Hb & Ha).
      exists before. split; [exact Hb |].
      rewrite <- Ha. apply (write_loop_keeps n f i l t1 t' Hrun).
      apply Forall_forall. intros i0 Hi0.
      rewrite Forall_forall in Hl. apply Hfar; [now apply Hl | exact Hi |].
      intros ->. apply Hfresh. now apply list_elem_of_In.
    + destruct (IH t1 t' Hrun Hl Hnd' Hi' Hin) as (before & Hb & Ha).
      exists before. split; [| exact Ha].
      rewrite <- Hb. symmetry.
      apply (SetTraversal_descend_keeps i i' _ n 0 t t1 Ht1).
      apply Hfar; [exact Hi | exact Hi' |].
      intros ->. now apply Hfresh.
Qed.

(** C4, as the code has it.  Where [Branch] delivers the expanded tree that
    [SetTraversal] descends, both traversals return.  The read traversal
    commits every pending buffer before it descends: the calls of
    [ApplySingle] it adds are the pending buffers in qubit order, none is
    left pending, and what the sink receives are the indices with the path
    products of the committed tree.  The write traversal leaves no buffer
    pending either and adds no call of [ApplySingle]: the buffers are
    dropped with the tree they were waiting for.  The tree it installs is
    [Prune] of [PopStateVector] of a tree built from the source: the
    freshly branched tree with, at the leaf of every index, what the source
    made of the fresh leaf, and with every scale above the leaves as
    [Branch] left it. *)

Theorem traversals_and_pending_buffers {Sink : Type}
    (getLambda : Z -> complex -> Sink -> Sink) (sink : Sink)
    (setLambda : Z -> QBdtNode -> QBdtNode) (q : QBdt) :
  expanded (qubitCount q) (Branch (qubitCount q) new_QBdtNode) ->
  (exists q1 : QBdt,
      FlushBuffers q = Some q1 /\
      GetTraversal getLambda q sink =
        Some (q1, deliver getLambda (deliveries q1) sink) /\
      qubitCount q1 = qubitCount q /\
      shards q1 = replicate (length (shards q)) None /\
      applied q1 = applied q ++ pending (shards q) /\
      root q1 = commit_all (pending (shards q)) (root q)) /\
  (exists (q' : QBdt) (built : QBdtNode),
      SetTraversal setLambda q = Some q' /\
      qubitCount q' = qubitCount q /\
      shards q' = replicate (length (shards q)) None /\
      applied q' = applied q /\
      root q' = Prune (qubitCount q) (PopStateVector (qubitCount q) built) /\
      (forall i : Z,
          0 <= i < 2 ^ Z.of_nat (qubitCount q) ->
          exists fresh : QBdtNode,
            leaf_at i 0 (qubitCount q) (Branch (qubitCount q) new_QBdtNode) =
              Some fresh /\
            leaf_at i 0 (qubitCount q) built =
              Some (setLambda (to_bitCapIntOcl i) fresh)) /\
      (forall (i : Z) (m : nat),
          (m < qubitCount q)%nat ->
          option_map node_scale (leaf_at i 0 m built) =
          option_map node_scale
            (leaf_at i 0 m (Branch (qubitCount q) new_QBdtNode)))).
Proof.
  intros Hexp. split.
  - eexists.
    split; [apply FlushBuffers_commits |].
    split; [apply (GetTraversal_run getLambda q _ sink (FlushBuffers_commits q)) |].
    now repeat split.
  - unfold SetTraversal. rewrite DumpBuffers_discards.
    cbn [qubitCount]. unfold maxQPower, par_for. cbn [qubitCount].
    destruct (for_each_invariant (expanded (qubitCount q))
                (fun i r => SetTraversal_descend i 0 (qubitCount q)
                              (setLambda (to_bitCapIntOcl i)) r)
                (seqZ 0 (2 ^ Z.of_nat (qubitCount q)))
                _ Hexp) as (built & Hrun & _).
    { intros i r Hr. now apply SetTraversal_descend_expanded. }
    rewrite Hrun. eexists. exists built.
    split; [reflexivity |].
    do 4 (split; [reflexivity |]).
    split.
    + intros i Hi.
      apply (write_loop_writes (qubitCount q) (fun i => setLambda (to_bitCapIntOcl i))
               i (seqZ 0 (2 ^ Z.of_nat (qubitCount q))) _ built Hrun).
      * apply Forall_forall. intros x Hx.
        apply list_elem_of_In, elem_of_seqZ in Hx. lia.
      * apply NoDup_seqZ.
      * exact Hi.
      * apply elem_of_seqZ. lia.
    + intros i m Hm.
      exact (write_loop_inner (qubitCount q) (fun i => setLambda (to_bitCapIntOcl i))
               i m (seqZ 0 (2 ^ Z.of_nat (qubitCount q))) _ built Hrun Hm).
Qed.

End TraversalFacts.

(** ** Sampling *)

Section MeasurementFacts.

Context {CFG : Config} {CO : ComplexOps} {CB : Collaborators} {MO : MeasureOps}.

(** Without collapse the walk writes nothing. *)


(** The outcome does not depend on whether the walk collapses. *)


(** A walk that starts at depth [j] leaves the bits below [j] of the
    outcome as it found them. *)


(** With collapse the walk returns the tree mutated to the path of its
    outcome: the tree depends on the draws through the outcome only. *)


(** The outcome of a walk over [steps] levels from depth [j] has no bit
    from [j + steps] on. *)




(** The read-only call returns the flushed register. *)


(** C6, as the model has it.  Like every measurement
    [MAllOptionalCollapse(false)] first flushes the pending buffers; it then
    samples an outcome of [0, 2^n) and writes nothing more: the register it
    leaves is the flushed one, which is the register itself when no buffer
    was pending, and a traversal afterwards delivers what it would have
    delivered before.  The same holds of [SampleClone].  [MAll] draws the
    same outcome and leaves the flushed tree mutated to the path of that
    outcome, the buffers and the history being those of the flushed
    register. *)


End MeasurementFacts.

(** ** The definitions at work on the small registers *)

Section DemoFacts.

Existing Instance demo_config.
Existing Instance demo_complex.
Existing Instance demo_collaborators.
Existing Instance demo_measure.

(** A read traversal of the two-qubit register: both buffers are committed,
    then the four amplitudes arrive with their indices. *)

Lemma GetTraversal_delivers_witness :
  Z.of_nat (qubitCount demo_register2) <= bitCapIntOcl_bits /\
  exists q1 : QBdt,
    GetTraversal demo_record demo_register2 [] =
      Some (q1, [(0, 6); (1, 12); (2, 18); (3, 24)]) /\
    shards q1 = [None; None] /\
    applied q1 = [(demo_Z, 0%nat); (demo_X, 1%nat)].
Proof.
  assert (Hn : Z.of_nat (qubitCount demo_register2) <= bitCapIntOcl_bits)
    by (vm_compute; discriminate).
  split; [exact Hn |].
  destruct (@GetTraversal_delivers_path_products
              demo_config demo_complex demo_collaborators _
              demo_record demo_register2 [])
    as (q1 & _ & _ & Hsh & Hap & Hr & _ & Hexact).
  exists q1. split; [| split; assumption].
  rewrite (Hexact Hn), Hr. reflexivity.
Defined.

(** Qubit 1 as target and qubit 0, whose buffer is a phase gate, as control:
    the target's buffer is committed and cleared, the control's stays. *)

Lemma FlushIfBlocked_witness :
  (1 < length (shards demo_register2))%nat /\
  Forall (fun c => (c < length (shards demo_register2))%nat) [0%nat] /\
  exists (q' : QBdt) (new : list (Mtrx * nat)),
    FlushIfBlocked 1 [0%nat] demo_register2 = Some q' /\
    applied q' = applied demo_register2 ++ new /\
    shards q' !! 1%nat = Some None /\
    (demo_X, 1%nat) ∈ new /\
    shards q' !! 0%nat = Some (Some (mkShard demo_Z)) /\
    (forall m, (m, 0%nat) ∉ new).
Proof.
  assert (H1 : (1 < length (shards demo_register2))%nat) by (simpl; lia).
  assert (H2 : Forall (fun c => (c < length (shards demo_register2))%nat) [0%nat])
    by (repeat constructor; simpl; lia).
  split; [exact H1 |]. split; [exact H2 |].
  destruct (FlushIfBlocked_control_and_target demo_register2 1 [0%nat] H1 H2)
    as (q' & new & Hrun & Ha & _ & Ht & Htc & Hc & _).
  exists q', new.
  split; [exact Hrun |]. split; [exact Ha |]. split; [exact Ht |].
  split; [apply (Htc (mkShard demo_X)); reflexivity |].
  destruct (Hc 0%nat (mkShard demo_Z)) as [_ Hphase];
    [apply list_elem_of_here | lia | reflexivity |].
  apply Hphase. reflexivity.
Defined.

(** The other way round, the control's buffer is not a phase gate and is
    committed first. *)

Example FlushIfBlocked_flushes_blocked_control :
  FlushIfBlocked 0 [1%nat] demo_register2 =
  Some (mkQBdt 2 (set_scale 6 (root demo_register2)) [None; None]
               [(demo_X, 1%nat); (demo_Z, 0%nat)]).
Proof. reflexivity. Qed.

(** Both traversals on the one-qubit register. *)

Lemma traversals_and_pending_buffers_witness :
  expanded (qubitCount demo_register) (Branch (qubitCount demo_register) new_QBdtNode) /\
  (exists q1 : QBdt,
      GetTraversal demo_record demo_register [] = Some (q1, [(0, 9); (1, 12)]) /\
      shards q1 = [None] /\
      applied q1 = [(demo_X, 0%nat)]) /\
  (exists q' : QBdt,
      SetTraversal demo_assign demo_register = Some q' /\
      root q' = mkNode 1 (Some (mkNode 5 None None)) (Some (mkNode 6 None None)) /\
      shards q' = [None] /\
      applied q' = []).
Proof.
  assert (Hexp : expanded (qubitCount demo_register)
                          (Branch (qubitCount demo_register) new_QBdtNode))
    by (simpl; split; exact I).
  split; [exact Hexp |].
  destruct (@traversals_and_pending_buffers
              demo_config demo_complex demo_collaborators _
              demo_record [] demo_assign demo_register Hexp)
    as [(q1 & Hflush & Hget & _ & Hsh1 & Hap1 & _)
        (q' & built & Hset & _ & Hsh' & Hap' & _)].
  split.
  - exists q1. split; [| split; assumption].
    rewrite Hget. vm_compute in Hflush. injection Hflush as <-. reflexivity.
  - exists q'. split; [exact Hset |].
    vm_compute in Hset. injection Hset as <-. now repeat split.
Defined.

(** The write traversal of a register with a pending buffer: the buffer is
    gone afterwards and [ApplySingle] has not been called, so the buffer was
    not committed. *)

Lemma SetTraversal_commits_no_buffer :
  pending (shards demo_register) = [(demo_X, 0%nat)] /\
  exists q' : QBdt,
    SetTraversal demo_assign demo_register = Some q' /\
    shards q' = [None] /\
    applied q' = [] /\
    applied q' <> applied demo_register ++ pending (shards demo_register).
Proof.
  split; [reflexivity |].
  eexists.
  split; [vm_compute; reflexivity |]. split; [reflexivity |]. split; [reflexivity |].
  discriminate.
Qed.

Example GetQuantumState_demo :
  GetQuantumState demo_register [0; 0] =
  Some (mkQBdt 1 (set_scale 3 (root demo_register)) [None] [(demo_X, 0%nat)], [9; 12]).
Proof. reflexivity. Qed.

(** The one-qubit register has a buffer pending.  The read-only sample
    returns a register whose buffer is gone and whose tree has the gate
    committed: the tree and the shard buffers are not those before the
    call. *)


(** Sampling with every draw equal to [0] takes branch 1 wherever it has
    weight: [MAll] rewrites the flushed tree, the read-only walk does not. *)

Example MAll_demo :
  MAll (fun _ => 0%Q) demo_register =
  (1, mkQBdt 1 (mkNode 3 (Some empty_leaf) (Some (mkNode 1 None None)))
             [None] [(demo_X, 0%nat)]).
Proof. reflexivity. Qed.

Example MAllOptionalCollapse_demo :
  MAllOptionalCollapse false (fun _ => 0%Q) demo_register =
  (1, mkQBdt 1 (set_scale 3 (root demo_register)) [None] [(demo_X, 0%nat)]).
Proof. reflexivity. Qed.

(** [SampleClone] tests each qubit power with [bi_compare_0(...) != 0]: the
    raw sample [1] has the bit of the power [1], and the sample returned has
    not. *)

Example SampleClone_demo :
  fst (SampleClone (fun _ => 0%Q) [1] demo_register) = 0.
Proof. reflexivity. Qed.

End DemoFacts.

(* ===================================================================== *)
(** * Part III.  Further properties of the code *)
(* ===================================================================== *)

(** ** The shifts of [BigInteger] *)

Lemma loop_bound_below (ST : BigInteger.count_type) (m : Z) (sq : nat) :
  BigInteger.count_modulus ST = Some m ->
  Z.of_nat sq + 1 < m ->
  BigInteger.loop_bound ST sq = (sq + 1)%nat.
Proof.
  intros Hm Hlt. unfold BigInteger.loop_bound. rewrite Hm.
  rewrite Z.mod_small by lia. lia.
Qed.

Lemma loop_bound_at_maximum (ST : BigInteger.count_type) (m : Z) (top : nat) :
  BigInteger.count_modulus ST = Some m ->
  Z.of_nat top + 1 = m ->
  BigInteger.loop_bound ST top = 0%nat.
Proof.
  intros Hm Htop. unfold BigInteger.loop_bound. rewrite Hm, Htop.
  rewrite Z.mod_same by lia. reflexivity.
Qed.

(** With no round of the loop the result is the zero of [mpz_init2]. *)

Lemma shifts_without_rounds (ST : BigInteger.count_type) (x : Z) (top : nat) :
  top <> 0%nat ->
  BigInteger.loop_bound ST top = 0%nat ->
  BigInteger.operator_shr ST x top = 0 /\
  BigInteger.operator_shr_assign ST x top = 0 /\
  BigInteger.operator_shl ST x top = 0 /\
  BigInteger.operator_shl_assign ST x top = 0.
Proof.
  intros Hnz Hb.
  unfold BigInteger.operator_shr, BigInteger.operator_shr_assign,
    BigInteger.operator_shl, BigInteger.operator_shl_assign.
  rewrite Hb. destruct (Nat.eqb_spec top 0) as [E | _]; [contradiction |].
  cbn [seq fold_left].
  destruct (BigInteger.is_zero x), (BigInteger.is_negative x); now repeat split.
Qed.



(** X1. For a count below the maximum of [BIG_INTEGER_WORD], [operator>>],
    [operator>>=], [bi_rshift_ip], [bi_rshift_word] and [bi_rshift_word_ip]
    return the floor of [x / 2^sq] whatever the sign of the operand: the
    loops overwrite their result at every round and the last round decides.
    At the maximum count the bound [sq + 1U] is [0], no round is run and
    all five return [0]. *)



(** X2. For a count below the maximum of [BIG_INTEGER_WORD], [operator<<],
    [operator<<=] and [bi_lshift_ip] multiply by [2^sq], and a right shift
    by the same count undoes a left shift, for operands of either sign.  At
    the maximum count no round of the loop is run: the three return [0],
    and so does the shift there and back. *)



(** X3. For a count below the maximum of [BIG_INTEGER_WORD],
    [bi_lshift_word] shifts by [rightMult] bits; at the maximum count it
    returns [0].  [bi_lshift_word_ip] shifts by [rightMult mod 64] bits
    whatever the count, its own count never exceeding [63]: with a count of
    [64] or a multiple of it the in-place function changes nothing, and at
    the maximum count it shifts by [63] bits. *)



(** ** Logarithms, in full *)


(** X4. [BigInteger::log2] returns the position of the highest set bit for
    every argument from [2] on, and [-1] for every argument below [2]:
    negative numbers, [0], and [1]. *)


(** X5. [bi_log2], given at least one round, returns [0] for every argument
    other than [0] and [1], and for [0] and [1] it is still in its loop after
    any number of rounds. *)

Theorem bi_log2_outcomes (fuel : nat) (n : Z) :
  BigInteger.bi_log2 (S fuel) n = if (n =? 0) || (n =? 1) then None else Some 0.
Proof.
  destruct ((n =? 0) || (n =? 1)) eqn:E.
  - assert (Hn : n = 0 \/ n = 1) by lia.
    unfold BigInteger.bi_log2. cbv zeta. rewrite operator_shr_shiftr by reflexivity.
    replace (Z.shiftr n (Z.of_nat 1)) with 0 by (destruct Hn; subst n; reflexivity).
    apply bi_log2_loop_zero.
  - apply bi_log2_nonzero_half.
    rewrite Z.shiftr_div_pow2 by lia. change (2 ^ 1) with 2.
    intro Hz. apply Z.div_small_iff in Hz; lia.
Qed.

(** ** Comparison with one *)

(** X6. [bi_compare_1] of the GNU MP header compares its argument with
    zero: it returns what [bi_compare(x, 0)] returns, the sign of [x]. *)

Theorem bi_compare_1_compares_with_zero (x : Z) :
  BigInteger.bi_compare_1 x = BigInteger.bi_compare x 0 /\
  BigInteger.bi_compare_1 x = Z.sgn x.
Proof.
  unfold BigInteger.bi_compare_1, BigInteger.bi_compare,
    BigInteger.is_zero, BigInteger.is_negative, BigInteger.mpz_sgn.
  destruct x; split; reflexivity.
Qed.

(** ** Division *)

Lemma sgn_eqb_m1 (x : Z) : (BigInteger.mpz_sgn x =? -1) = (x <? 0).
Proof. destruct x; reflexivity. Qed.

Lemma sgn_eqb_0 (x : Z) : (BigInteger.mpz_sgn x =? 0) = (x =? 0).
Proof. destruct x; reflexivity. Qed.

Lemma floor_division (n d : Z) :
  d <> 0 ->
  n = n / d * d + n mod d /\
  (0 < d -> 0 <= n mod d < d) /\ (d < 0 -> d < n mod d <= 0).
Proof.
  intros Hd. split; [| split].
  - pose proof (Z.div_mod n d Hd). lia.
  - intros Hp. apply Z.mod_pos_bound. exact Hp.
  - intros Hn. apply Z.mod_neg_bound. exact Hn.
Qed.

Lemma ceiling_division (n d : Z) :
  d <> 0 ->
  BigInteger.mpz_cdiv_q n d = Some (- (- n / d)) /\
  BigInteger.mpz_cdiv_r n d = Some (- (- n mod d)) /\
  n = - (- n / d) * d + - (- n mod d) /\
  (0 < d -> - d < - (- n mod d) <= 0) /\ (d < 0 -> 0 <= - (- n mod d) < - d).
Proof.
  intros Hd. unfold BigInteger.mpz_cdiv_q, BigInteger.mpz_cdiv_r.
  destruct (Z.eqb_spec d 0) as [| _]; [contradiction |].
  destruct (floor_division (- n) d Hd) as (Heq & Hpos & Hneg).
  split; [reflexivity |].
  split; [f_equal; lia |].
  split; [lia |].
  split; intros Hs; [specialize (Hpos Hs) | specialize (Hneg Hs)]; lia.
Qed.

(** X7. With a divisor other than zero, [operator/] and [operator%] return
    a quotient and a remainder with [a = q * b + r] and [|r| < |b|], and
    the quotient is rounded away from zero: the remainder is never of the
    sign of the dividend.  For two positive operands the quotient is the
    ceiling, so [7 / 2] is [4] and [7 % 2] is [-1]. *)

Theorem division_rounds_away_from_zero (a b : Z) :
  b <> 0 ->
  exists q r : Z,
    BigInteger.operator_div a b = Some q /\
    BigInteger.operator_mod a b = Some r /\
    a = q * b + r /\
    Z.abs r < Z.abs b /\
    (0 < a -> r <= 0) /\
    (a < 0 -> 0 <= r).
Proof.
  intros Hb.
  unfold BigInteger.operator_div, BigInteger.operator_mod.
  rewrite !sgn_eqb_m1, !sgn_eqb_0.
  destruct (ceiling_division a b Hb) as (Hcq & Hcr & Hceq & Hcpos & Hcneg).
  destruct (floor_division a b Hb) as (Hfeq & Hfpos & Hfneg).
  assert (Hfq : BigInteger.mpz_fdiv_q a b = Some (a / b)).
  { unfold BigInteger.mpz_fdiv_q. destruct (Z.eqb_spec b 0); [contradiction | reflexivity]. }
  assert (Hfr : BigInteger.mpz_fdiv_r a b = Some (a mod b)).
  { unfold BigInteger.mpz_fdiv_r. destruct (Z.eqb_spec b 0); [contradiction | reflexivity]. }
  destruct (Z.ltb_spec a 0) as [Ha | Ha], (Z.ltb_spec b 0) as [Hbn | Hbn];
    cbn [andb orb].
  - exists (- (- a / b)), (- (- a mod b)).
    specialize (Hcneg Hbn). repeat split; try assumption; lia.
  - exists (a / b), (a mod b).
    assert (Hbp : 0 < b) by lia. specialize (Hfpos Hbp).
    repeat split; try assumption; lia.
  - exists (a / b), (a mod b).
    specialize (Hfneg Hbn). repeat split; try assumption; lia.
  - destruct (Z.eqb_spec a 0) as [-> | Hnz]; cbn [orb].
    + exists 0, 0. repeat split; lia.
    + destruct (Z.eqb_spec b 0) as [| _]; [contradiction |].
      exists (- (- a / b)), (- (- a mod b)).
      assert (Hbp : 0 < b) by lia. specialize (Hcpos Hbp).
      repeat split; try assumption; lia.
Qed.

Lemma division_rounds_away_witness :
  2 <> 0 /\
  BigInteger.operator_div 7 2 = Some 4 /\ BigInteger.operator_mod 7 2 = Some (-1).
Proof.
  assert (H : 2 <> 0) by lia.
  split; [exact H |].
  destruct (division_rounds_away_from_zero 7 2 H) as (q & r & Hq & Hr & _).
  split; reflexivity.
Defined.

(** X8. A zero divisor: for a dividend that is not negative [operator/] and
    [operator%] return zero without dividing, in both overloads; for a
    negative dividend they divide by zero inside GMP. *)

Theorem division_by_zero (a : Z) :
  BigInteger.operator_div a 0 = (if a <? 0 then None else Some 0) /\
  BigInteger.operator_mod a 0 = (if a <? 0 then None else Some 0) /\
  BigInteger.operator_div_word a 0 = (if a <? 0 then None else Some 0) /\
  BigInteger.operator_mod_word a 0 = (if a <? 0 then None else Some 0).
Proof.
  unfold BigInteger.operator_div, BigInteger.operator_mod,
    BigInteger.operator_div_word, BigInteger.operator_mod_word.
  rewrite !sgn_eqb_m1, !sgn_eqb_0.
  destruct (Z.ltb_spec a 0); cbn [andb orb Z.ltb Z.eqb Z.compare];
    rewrite ?orb_true_r; repeat split; reflexivity.
Qed.

(** X9. [bi_div_mod] always rounds the quotient up: with a divisor other
    than zero, [left = q * right + r] where the remainder is zero or of the
    sign opposite to the divisor's; a call with one null pointer computes
    the same quotient or the same remainder and leaves the null pointer
    alone. *)

Theorem bi_div_mod_rounds_up (left right q0 r0 : Z) :
  right <> 0 ->
  exists q r : Z,
    BigInteger.bi_div_mod left right (Some q0) (Some r0) = Some (Some q, Some r) /\
    BigInteger.bi_div_mod left right (Some q0) None = Some (Some q, None) /\
    BigInteger.bi_div_mod left right None (Some r0) = Some (None, Some r) /\
    left = q * right + r /\
    (0 < right -> - right < r <= 0) /\
    (right < 0 -> 0 <= r < - right).
Proof.
  intros Hr.
  destruct (ceiling_division left right Hr) as (Hcq & Hcr & Heq & Hpos & Hneg).
  exists (- (- left / right)), (- (- left mod right)).
  unfold BigInteger.bi_div_mod. rewrite Hcq, Hcr.
  do 3 (split; [reflexivity |]).
  split; [exact Heq |]. split; [exact Hpos | exact Hneg].
Qed.

Lemma bi_div_mod_rounds_up_witness :
  3 <> 0 /\
  BigInteger.bi_div_mod (-7) 3 (Some 0) (Some 0) = Some (Some (-2), Some (-1)).
Proof.
  assert (H : 3 <> 0) by lia.
  split; [exact H |].
  destruct (bi_div_mod_rounds_up (-7) 3 0 0 H) as (q & r & Hrun & _).
  reflexivity.
Defined.

(** X10. [bi_div_mod_small] with a divisor that fits the half word and is
    not zero: the remainder it stores lies in [0, right); for a positive
    dividend the quotient is rounded up and the remainder is what must be
    added to the dividend to reach [quotient * right]; otherwise
    [left = quotient * right + remainder]. *)

Theorem bi_div_mod_small_remainder (left right : Z) :
  0 < right < 2 ^ 32 ->
  exists q rm : Z,
    BigInteger.bi_div_mod_small left right = Some (q, rm) /\
    0 <= rm < right /\
    (if 0 <? left then q * right = left + rm else left = q * right + rm).
Proof.
  intros Hr. assert (Hnz : right <> 0) by lia.
  unfold BigInteger.bi_div_mod_small, BigInteger.is_zero, BigInteger.is_negative.
  change (BigInteger.mpz_sgn left <? 0) with (BigInteger.mpz_sgn left <? 0).
  rewrite sgn_eqb_0.
  destruct (Z.eqb_spec left 0) as [-> | Hl].
  - exists 0, 0. repeat split; try reflexivity; lia.
  - assert (Hneg : (BigInteger.mpz_sgn left <? 0) = (left <? 0))
      by (destruct left; reflexivity).
    rewrite Hneg.
    destruct (Z.ltb_spec left 0) as [Hlt | Hge].
    + destruct (floor_division left right Hnz) as (Heq & Hpos & _).
      specialize (Hpos (proj1 Hr)).
      unfold BigInteger.mpz_fdiv_q, BigInteger.mpz_fdiv_r.
      destruct (Z.eqb_spec right 0); [contradiction |].
      exists (left / right), (left mod right).
      rewrite Z.abs_eq, Z.mod_small by lia.
      destruct (Z.ltb_spec 0 left); [lia |].
      repeat split; lia.
    + destruct (ceiling_division left right Hnz) as (Hcq & Hcr & Heq & Hpos & _).
      specialize (Hpos (proj1 Hr)).
      rewrite Hcq, Hcr.
      exists (- (- left / right)), (- left mod right).
      rewrite Z.abs_neq, Z.opp_involutive, Z.mod_small by lia.
      destruct (Z.ltb_spec 0 left); [| lia].
      repeat split; lia.
Qed.

Lemma bi_div_mod_small_witness :
  0 < 2 < 2 ^ 32 /\ BigInteger.bi_div_mod_small 7 2 = Some (4, 1).
Proof.
  assert (H : 0 < 2 < 2 ^ 32) by (split; reflexivity).
  split; [exact H |].
  destruct (bi_div_mod_small_remainder 7 2 H) as (q & rm & _).
  reflexivity.
Defined.

(** ** Permutation indices *)

(** X11. For [bit] below the maximum of [bitLenInt] in either build,
    [SelectBit(perm, bit)] is the binary digit of weight [2^bit] of [perm],
    for a [perm] of either sign, and it is what the shift by a [uint32_t]
    and by a [uint64_t] select.  At the maximum of the count type the loop
    of the shift is skipped and the bit selected is [0] whatever [perm]. *)

Theorem SelectBit_is_binary_digit (perm : Z) (bit : nat) :
  Z.of_nat bit < 2 ^ 32 - 1 ->
  SelectBit perm bit = (perm / 2 ^ Z.of_nat bit) mod 2 /\
  BigInteger.bi_and_1 (BigInteger.operator_shr BigInteger.uint32_t perm bit) =
    SelectBit perm bit /\
  BigInteger.bi_and_1 (BigInteger.operator_shr BigInteger.uint64_t perm bit) =
    SelectBit perm bit /\
  (forall top : nat,
      Z.of_nat top = 2 ^ 32 - 1 ->
      BigInteger.bi_and_1 (BigInteger.operator_shr BigInteger.uint32_t perm top) = 0) /\
  (forall top : nat,
      Z.of_nat top = 2 ^ 64 - 1 ->
      BigInteger.bi_and_1 (BigInteger.operator_shr BigInteger.uint64_t perm top) = 0).
Proof.
  intros Hbit.
  assert (Hsame : forall ST,
             BigInteger.loop_bound ST bit = (bit + 1)%nat ->
             BigInteger.bi_and_1 (BigInteger.operator_shr ST perm bit) =
             SelectBit perm bit).
  { intros ST Hb. unfold SelectBit.
    now rewrite !operator_shr_shiftr by (exact Hb || reflexivity). }
  assert (Htop : forall ST (top : nat),
             top <> 0%nat -> BigInteger.loop_bound ST top = 0%nat ->
             BigInteger.bi_and_1 (BigInteger.operator_shr ST perm top) = 0).
  { intros ST top Hnz Hb.
    destruct (shifts_without_rounds ST perm top Hnz Hb) as [-> _]. reflexivity. }
  split.
  - rewrite SelectBit_testbit, <- Z.testbit_spec' by lia.
    now destruct (Z.testbit perm (Z.of_nat bit)).
  - split; [apply Hsame, (loop_bound_below _ (2 ^ 32)); [reflexivity | lia] |].
    split; [apply Hsame, (loop_bound_below _ (2 ^ 64)); [reflexivity | lia] |].
    split; intros top Ht; apply Htop; try lia.
    + apply (loop_bound_at_maximum _ (2 ^ 32)); [reflexivity | lia].
    + apply (loop_bound_at_maximum _ (2 ^ 64)); [reflexivity | lia].
Qed.

Lemma SelectBit_witness :
  Z.of_nat 1 < 2 ^ 32 - 1 /\ SelectBit (-5) 1 = 1 /\ SelectBit 5 1 = 0.
Proof.
  assert (H : Z.of_nat 1 < 2 ^ 32 - 1) by reflexivity.
  split; [exact H |].
  destruct (SelectBit_is_binary_digit (-5) 1 H) as [H1 _].
  destruct (SelectBit_is_binary_digit 5 1 H) as [H2 _].
  split; [exact H1 | exact H2].
Defined.

Lemma testbit_pow2_minus_2 (k : nat) (n : Z) :
  (1 <= k)%nat -> 0 <= n ->
  Z.testbit (2 ^ Z.of_nat k - 2) n = (1 <=? n) && (n <? Z.of_nat k).
Proof.
  intros Hk Hn.
  replace (2 ^ Z.of_nat k - 2) with (Z.shiftl (Z.ones (Z.of_nat k - 1)) 1).
  - destruct (Z.leb_spec 1 n) as [H1 | H1]; cbn [andb].
    + rewrite Z.shiftl_spec_high by lia.
      destruct (Z.ltb_spec n (Z.of_nat k)).
      * apply Z.ones_spec_low. lia.
      * apply Z.ones_spec_high. lia.
    + apply Z.shiftl_spec_low. lia.
  - rewrite Z.shiftl_mul_pow2, Z.ones_equiv by lia. change (2 ^ 1) with 2.
    replace (Z.of_nat k) with (Z.succ (Z.of_nat k - 1)) at 2 by lia.
    rewrite Z.pow_succ_r by lia. lia.
Qed.

(** X12. What [RemovePower] returns with the negating [operator~].  For
    [power = 2^k], [k >= 1], it is the index with bit [k] deleted, with bit 1
    of [perm] or-ed into bit 0: it is right exactly on the indices whose bit
    1 is not set or whose bit 0 is.  For [power = 1] it is [0] whatever the
    index. *)

Theorem RemovePower_leaks_bit_one (perm : Z) (k : nat) :
  (1 <= k)%nat ->
  RemovePower perm (2 ^ Z.of_nat k) = Z.lor (delete_bit perm k) (SelectBit perm 1) /\
  RemovePower perm 1 = 0.
Proof.
  intros Hk. split.
  - rewrite delete_bit_bits, SelectBit_testbit.
    unfold RemovePower, BigInteger.bi_decrement,
      BigInteger.operator_sub_assign, BigInteger.mpz_sub_ui,
      BigInteger.operator_or, BigInteger.operator_and, BigInteger.operator_not,
      BigInteger.mpz_mul_si, BigInteger.mpz_ior, BigInteger.mpz_and.
    cbv zeta. rewrite operator_shr_shiftr by reflexivity. change (Z.of_nat 1) with 1.
    replace (2 ^ Z.of_nat k - 1) with (Z.ones (Z.of_nat k))
      by (rewrite Z.ones_equiv; lia).
    replace (Z.ones (Z.of_nat k) * -1) with (Z.lnot (2 ^ Z.of_nat k - 2))
      by (rewrite Z.ones_equiv; unfold Z.lnot; lia).
    apply Z.bits_inj'. intros n Hn.
    rewrite !Z.lor_spec, !Z.land_spec, Z.lnot_spec, Z.shiftr_spec by lia.
    rewrite testbit_pow2_minus_2 by lia.
    assert (Hbit : Z.testbit (if Z.testbit perm 1 then 1 else 0) n =
                   (n =? 0) && Z.testbit perm 1).
    { destruct (Z.testbit perm 1).
      - destruct (Z.eqb_spec n 0) as [-> | Hne]; cbn [andb]; [reflexivity |].
        apply (Z.pow2_bits_false 0 n). lia.
      - rewrite Z.bits_0. now rewrite andb_false_r. }
    rewrite Hbit.
    destruct (Z.lt_ge_cases n (Z.of_nat k)) as [Hlt | Hge].
    + rewrite Z.ones_spec_low, Z.shiftl_spec_low by lia.
      assert (E2 : (n <? Z.of_nat k) = true) by (apply Z.ltb_lt; lia).
      rewrite E2.
      destruct (Z.eq_dec n 0) as [-> | Hne].
      * change (0 + 1) with 1. cbn [Z.leb Z.eqb Z.compare andb negb].
        destruct (Z.testbit perm 0), (Z.testbit perm 1); reflexivity.
      * assert (E1 : (1 <=? n) = true) by (apply Z.leb_le; lia).
        assert (E0 : (n =? 0) = false) by (apply Z.eqb_neq; lia).
        rewrite E1, E0. cbn [andb negb].
        destruct (Z.testbit perm n), (Z.testbit perm (n + 1)); reflexivity.
    + rewrite Z.ones_spec_high, Z.shiftl_spec_high, Z.shiftr_spec by lia.
      assert (E2 : (n <? Z.of_nat k) = false) by (apply Z.ltb_ge; lia).
      assert (E0 : (n =? 0) = false) by (apply Z.eqb_neq; lia).
      assert (E1 : (1 <=? n) = true) by (apply Z.leb_le; lia).
      rewrite E2, E0, E1.
      replace (n - Z.of_nat k + (Z.of_nat k + 1)) with (n + 1) by lia.
      cbn [andb negb].
      destruct (Z.testbit perm n), (Z.testbit perm (n + 1)); reflexivity.
  - unfold RemovePower, BigInteger.bi_decrement,
      BigInteger.operator_sub_assign, BigInteger.mpz_sub_ui,
      BigInteger.operator_or, BigInteger.operator_and, BigInteger.operator_not,
      BigInteger.mpz_mul_si, BigInteger.mpz_ior, BigInteger.mpz_and.
    cbv zeta. change (1 - 1) with 0. change (0 * -1) with 0.
    now rewrite !Z.land_0_r.
Qed.

Lemma RemovePower_leaks_witness :
  (1 <= 2)%nat /\ RemovePower 6 (2 ^ Z.of_nat 2) = 3 /\ delete_bit 6 2 = 2.
Proof.
  assert (H : (1 <= 2)%nat) by lia.
  split; [exact H |].
  destruct (RemovePower_leaks_bit_one 6 2 H) as [Hk _].
  split; [rewrite Hk |]; reflexivity.
Defined.

(** X13. [ProbParity] and [ForceMParity] never reach their single-qubit
    exit: a mask other than zero returns through the exit for the empty
    mask, and the zero mask is handed to the state-vector engine. *)

Theorem parity_methods_never_single_qubit (log2 : Z -> Z) (mask : Z) :
  ProbParity log2 mask = (if mask =? 0 then AsStateVector else EmptyMask) /\
  ForceMParity log2 mask = (if mask =? 0 then AsStateVector else EmptyMask).
Proof.
  unfold ProbParity, ForceMParity.
  destruct (Z.eqb_spec mask 0) as [-> | Hm].
  - split; apply parity_route_zero.
  - split; now apply parity_route_nonzero.
Qed.

(** X14. The eight swap gates hand their two qubits to the base class in
    increasing order, whichever way round they were given. *)

Theorem swap_gates_order_their_qubits (controls : list nat) (q1 q2 : nat) :
  Forall (fun c => call_q1 c = Nat.min q1 q2 /\ call_q2 c = Nat.max q1 q2)
         [Swap q1 q2; ISwap q1 q2; IISwap q1 q2; SqrtSwap q1 q2; ISqrtSwap q1 q2;
          CSwap controls q1 q2; CSqrtSwap controls q1 q2; CISqrtSwap controls q1 q2] /\
  Swap q1 q2 = Swap q2 q1 /\ ISwap q1 q2 = ISwap q2 q1 /\
  IISwap q1 q2 = IISwap q2 q1 /\ SqrtSwap q1 q2 = SqrtSwap q2 q1 /\
  ISqrtSwap q1 q2 = ISqrtSwap q2 q1 /\
  CSwap controls q1 q2 = CSwap controls q2 q1 /\
  CSqrtSwap controls q1 q2 = CSqrtSwap controls q2 q1 /\
  CISqrtSwap controls q1 q2 = CISqrtSwap controls q2 q1.
Proof.
  unfold Swap, ISwap, IISwap, SqrtSwap, ISqrtSwap, CSwap, CSqrtSwap, CISqrtSwap.
  destruct (Nat.ltb_spec q2 q1) as [H21 | H21], (Nat.ltb_spec q1 q2) as [H12 | H12];
    try lia.
  - split; [repeat constructor; cbn; lia | repeat split; reflexivity].
  - split; [repeat constructor; cbn; lia | repeat split; reflexivity].
  - assert (q1 = q2) by lia. subst q2.
    split; [repeat constructor; cbn; lia | repeat split; reflexivity].
Qed.

(** ** More on buffers and traversals *)

Section FurtherTraversalFacts.

Context {CFG : Config} {CO : ComplexOps} {CB : Collaborators}.

Lemma pending_from_no_buffers (k n : nat) :
  pending_from k (replicate n (None (A:=MpsShard))) = [].
Proof. revert k. induction n as [| n IH]; intro k; cbn; [reflexivity | apply IH]. Qed.

Lemma FlushBuffers_without_buffers (n : nat) (r : QBdtNode) (m : nat)
    (app : list (Mtrx * nat)) :
  FlushBuffers (mkQBdt n r (replicate m None) app) =
  Some (mkQBdt n r (replicate m None) app).
Proof.
  rewrite FlushBuffers_commits. cbn [qubitCount root shards applied].
  unfold pending. rewrite pending_from_no_buffers, length_replicate, app_nil_r.
  reflexivity.
Qed.

(** X15. [FlushBuffers] leaves a register on which flushing is a no-op: a
    second [FlushBuffers], [FlushBuffer] of any qubit of the register and
    [DumpBuffers] all return it unchanged, with nothing more committed. *)

Theorem FlushBuffers_settles (q : QBdt) :
  exists q1 : QBdt,
    FlushBuffers q = Some q1 /\
    pending (shards q1) = [] /\
    FlushBuffers q1 = Some q1 /\
    (forall t : nat, (t < length (shards q))%nat -> FlushBuffer t q1 = Some q1) /\
    DumpBuffers q1 = q1.
Proof.
  eexists. split; [apply FlushBuffers_commits |].
  split; [apply pending_from_no_buffers |].
  split; [apply FlushBuffers_without_buffers |].
  split.
  - intros t Ht. unfold FlushBuffer. cbn [shards].
    now rewrite lookup_replicate_2.
  - rewrite DumpBuffers_discards. cbn [qubitCount root shards applied].
    now rewrite length_replicate.
Qed.

(** X16. A second read traversal commits nothing, returns the register the
    first one returned and hands the sink the same pairs. *)

Theorem GetTraversal_twice {Sink : Type} (getLambda : Z -> complex -> Sink -> Sink)
    (q : QBdt) (sink sink2 : Sink) :
  exists q1 : QBdt,
    GetTraversal getLambda q sink =
      Some (q1, deliver getLambda (deliveries q1) sink) /\
    GetTraversal getLambda q1 sink2 =
      Some (q1, deliver getLambda (deliveries q1) sink2) /\
    applied q1 = applied q ++ pending (shards q).
Proof.
  eexists.
  split; [apply (GetTraversal_run getLambda q _ sink (FlushBuffers_commits q)) |].
  split; [| reflexivity].
  apply GetTraversal_run, FlushBuffers_without_buffers.
Qed.

(** X17. [FlushNonPhaseBuffers] commits and clears exactly the pending
    buffers that are not phase gates; the phase buffers stay as they were,
    so every buffer still pending afterwards is a phase gate. *)

Theorem FlushNonPhaseBuffers_leaves_phase_buffers (q : QBdt) :
  exists (q' : QBdt) (new : list (Mtrx * nat)),
    FlushNonPhaseBuffers q = Some q' /\
    applied q' = applied q ++ new /\
    root q' = commit_all new (root q) /\
    (forall c, shards q' !! c =
               match shards q !! c with
               | Some (Some s) => if IsPhase s then Some (Some s) else Some None
               | other => other
               end) /\
    (forall m c, (m, c) ∈ new <->
                 exists s, shards q !! c = Some (Some s) /\ IsPhase s = false /\
                           m = gate s) /\
    (forall c s, shards q' !! c = Some (Some s) -> IsPhase s = true).
Proof.
  assert (Hall : Forall (fun c => (c < length (shards q))%nat)
                        (seq 0 (length (shards q)))).
  { apply Forall_forall. intros c Hc. apply in_seq in Hc. lia. }
  destruct (FlushIfBlocked_controls_inv _ q Hall)
    as (q' & new & Hrun & _ & _ & Ha & Hr & Hs & Hnew).
  assert (Hb : forall c, blocked (seq 0 (length (shards q))) (shards q) c =
                         match shards q !! c with
                         | Some (Some s) => negb (IsPhase s)
                         | _ => false
                         end).
  { intro c. unfold blocked.
    destruct (shards q !! c) as [[s |] |] eqn:E; try apply andb_false_r.
    rewrite bool_decide_eq_true_2; [reflexivity |].
    apply list_elem_of_In, in_seq. apply lookup_lt_Some in E. lia. }
  assert (Hshape : forall c, shards q' !! c =
               match shards q !! c with
               | Some (Some s) => if IsPhase s then Some (Some s) else Some None
               | other => other
               end).
  { intro c. rewrite Hs, Hb.
    destruct (shards q !! c) as [[s |] |]; try reflexivity.
    now destruct (IsPhase s). }
  exists q', new.
  split; [exact Hrun |]. split; [exact Ha |]. split; [exact Hr |].
  split; [exact Hshape |]. split.
  - intros m c. rewrite Hnew, Hb. split.
    + intros [Hnp (s & Hsc & ->)]. exists s. rewrite Hsc in Hnp.
      split; [exact Hsc |]. split; [| reflexivity].
      now destruct (IsPhase s).
    + intros (s & Hsc & Hp & ->). rewrite Hsc, Hp.
      split; [reflexivity | now exists s].
  - intros c s Hc. rewrite Hshape in Hc.
    destruct (shards q !! c) as [[s0 |] |]; try discriminate.
    destruct (IsPhase s0) eqn:P; [| discriminate].
    congruence.
Qed.

(** Storing into an array at the indices of a list without repetition. *)

Lemma store_all {B : Type} (h : Z -> B) (l : list Z) :
  forall st : list B,
    NoDup l ->
    Forall (fun i => 0 <= i /\ (Z.to_nat i < length st)%nat) l ->
    length (fold_left (fun s i => <[Z.to_nat i := h i]> s) l st) = length st /\
    (forall i, i ∈ l ->
       fold_left (fun s i => <[Z.to_nat i := h i]> s) l st !! Z.to_nat i = Some (h i)) /\
    (forall k : nat, (forall i, i ∈ l -> Z.to_nat i <> k) ->
       fold_left (fun s i => <[Z.to_nat i := h i]> s) l st !! k = st !! k).
Proof.
  induction l as [| x l IH]; intros st Hnd Hall; cbn [fold_left].
  - split; [reflexivity |]. split; [| reflexivity].
    intros i Hi. now apply elem_of_nil in Hi.
  - inversion Hnd as [| x1 l1 Hx Hnd']; subst x1 l1.
    rename Hnd' into Hnd'0. pose proof Hnd'0 as Hnd1. clear Hnd Hnd'0.
    inversion Hall as [| x0 l0 [Hx0 Hxl] Hl]; subst x0 l0.
    assert (Hl1 : Forall (fun i => 0 <= i /\
                            (Z.to_nat i < length (<[Z.to_nat x := h x]> st))%nat) l)
      by (now rewrite length_insert).
    destruct (IH (<[Z.to_nat x := h x]> st) Hnd1 Hl1) as (Hlen & Hin & Hout).
    assert (Hfar : forall i, i ∈ l -> Z.to_nat i <> Z.to_nat x).
    { intros i Hi Heq. rewrite Forall_forall in Hl.
      apply list_elem_of_In in Hi as Hi'. destruct (Hl i Hi') as [Hi0 _].
      apply Hx. replace x with i by lia. exact Hi. }
    split; [now rewrite Hlen, length_insert |]. split.
    + intros i Hi. apply elem_of_cons in Hi as [-> | Hi].
      * rewrite (Hout _ Hfar). now apply list_lookup_insert_eq.
      * now apply Hin.
    + intros k Hk. rewrite Hout.
      * apply list_lookup_insert_ne. apply Hk. apply list_elem_of_here.
      * intros i Hi. apply Hk. now apply list_elem_of_further.
Qed.

Lemma GetTraversal_stores {B : Type} (h : complex -> B) (q : QBdt) (st : list B) :
  Z.of_nat (qubitCount q) <= bitCapIntOcl_bits ->
  2 ^ Z.of_nat (qubitCount q) <= Z.of_nat (length st) ->
  exists (q1 : QBdt) (st' : list B),
    GetTraversal (fun i scale s => <[Z.to_nat i := h scale]> s) q st = Some (q1, st') /\
    FlushBuffers q = Some q1 /\
    length st' = length st /\
    (forall i, 0 <= i < 2 ^ Z.of_nat (qubitCount q) ->
               st' !! Z.to_nat i = Some (h (path_product (qubitCount q) (root q1) i))) /\
    (forall k : nat, 2 ^ Z.of_nat (qubitCount q) <= Z.of_nat k -> st' !! k = st !! k).
Proof.
  intros Hn Hlen.
  pose proof (FlushBuffers_commits q) as Hf.
  set (q1 := mkQBdt (qubitCount q) (commit_all (pending (shards q)) (root q))
                    (replicate (length (shards q)) None)
                    (applied q ++ pending (shards q))) in *.
  exists q1. eexists.
  split; [apply (GetTraversal_run _ q q1 st Hf) |].
  split; [exact Hf |].
  rewrite (deliveries_exact q1) by exact Hn.
  unfold deliver. rewrite fold_left_through_map. cbn [fst snd].
  change (qubitCount q1) with (qubitCount q). unfold maxQPower.
  change (qubitCount q1) with (qubitCount q).
  destruct (store_all (fun i => h (path_product (qubitCount q) (root q1) i))
              (seqZ 0 (2 ^ Z.of_nat (qubitCount q))) st) as (Hl & Hin & Hout).
  - apply NoDup_seqZ.
  - apply Forall_forall. intros i Hi.
    apply list_elem_of_In, elem_of_seqZ in Hi. lia.
  - split; [exact Hl |]. split.
    + intros i Hi. apply Hin. apply elem_of_seqZ. lia.
    + intros k Hk. apply Hout. intros i Hi. apply elem_of_seqZ in Hi. lia.
Qed.

(** X18. [GetQuantumState] on an array with room for the [2^n] amplitudes,
    [n] no more than the bits of [bitCapIntOcl]: each of the first [2^n]
    slots receives the path product of its own index in the flushed tree,
    and nothing beyond them is written. *)

Theorem GetQuantumState_fills_the_array (q : QBdt) (state : list complex) :
  Z.of_nat (qubitCount q) <= bitCapIntOcl_bits ->
  2 ^ Z.of_nat (qubitCount q) <= Z.of_nat (length state) ->
  exists (q1 : QBdt) (state' : list complex),
    GetQuantumState q state = Some (q1, state') /\
    FlushBuffers q = Some q1 /\
    length state' = length state /\
    (forall i, 0 <= i < 2 ^ Z.of_nat (qubitCount q) ->
               state' !! Z.to_nat i = Some (path_product (qubitCount q) (root q1) i)) /\
    (forall k : nat, 2 ^ Z.of_nat (qubitCount q) <= Z.of_nat k ->
                     state' !! k = state !! k).
Proof. exact (GetTraversal_stores (fun c => c) q state). Qed.

(** X19. The tree that [SetTraversal] installs depends on the qubit count
    and the source alone: two registers of the same size, whatever their
    trees and pending buffers, end with the same tree, or both fail. *)

Theorem SetTraversal_forgets_the_register (setLambda : Z -> QBdtNode -> QBdtNode)
    (q1 q2 : QBdt) :
  qubitCount q1 = qubitCount q2 ->
  option_map root (SetTraversal setLambda q1) =
  option_map root (SetTraversal setLambda q2).
Proof.
  unfold SetTraversal. rewrite !DumpBuffers_discards. cbn [qubitCount].
  unfold maxQPower. cbn [qubitCount]. intros ->.
  now destruct (par_for _ _ _).
Qed.

(** X20. The assignment loop that [SetTraversal] runs for
    [SetQuantumState]: when it finishes, the node that the read descent
    reaches for any index of [0, 2^n) carries the amplitude the source array
    holds for that index. *)

Theorem SetQuantumState_loop_assigns_every_leaf (n : nat) (state : Z -> complex)
    (t t' : QBdtNode) (i : Z) :
  par_for (2 ^ Z.of_nat n)
          (fun i r => SetTraversal_descend i 0 n
                        ((fun i leaf => set_scale (state i) leaf) (to_bitCapIntOcl i)) r)
          t = Some t' ->
  0 <= i < 2 ^ Z.of_nat n ->
  exists leaf,
    leaf_at i 0 n t' = Some leaf /\ node_scale leaf = state (to_bitCapIntOcl i).
Proof.
  intros Hrun Hi. unfold par_for in Hrun.
  apply (assign_loop_writes n (fun i => state (to_bitCapIntOcl i)) i
                            (seqZ 0 (2 ^ Z.of_nat n)) t t' Hrun).
  - apply Forall_forall. intros x Hx.
    apply list_elem_of_In, elem_of_seqZ in Hx. lia.
  - exact Hi.
  - apply elem_of_seqZ. lia.
Qed.

End FurtherTraversalFacts.

(** ** More on sampling and probabilities *)

Section FurtherMeasurementFacts.

Context {CFG : Config} {CO : ComplexOps} {CB : Collaborators} {MO : MeasureOps}.

(** X21. [GetProbs] on an array with room for the [2^n] probabilities, [n]
    no more than the bits of [bitCapIntOcl]: each of the first [2^n] slots
    receives the squared magnitude of the path product of its own index in
    the flushed tree, and nothing beyond them is written. *)

Theorem GetProbs_fills_the_array (q : QBdt) (outputProbs : list Q) :
  Z.of_nat (qubitCount q) <= bitCapIntOcl_bits ->
  2 ^ Z.of_nat (qubitCount q) <= Z.of_nat (length outputProbs) ->
  exists (q1 : QBdt) (probs' : list Q),
    GetProbs q outputProbs = Some (q1, probs') /\
    FlushBuffers q = Some q1 /\
    length probs' = length outputProbs /\
    (forall i, 0 <= i < 2 ^ Z.of_nat (qubitCount q) ->
               probs' !! Z.to_nat i =
               Some (norm (path_product (qubitCount q) (root q1) i))) /\
    (forall k : nat, 2 ^ Z.of_nat (qubitCount q) <= Z.of_nat k ->
                     probs' !! k = outputProbs !! k).
Proof. exact (GetTraversal_stores norm q outputProbs). Qed.

Lemma or_of_powers (f : nat -> bool) (n : nat) :
  forall (a : nat) (s0 : Z) (k : nat),
    Z.testbit
      (fold_left (fun s i => if f i then Z.lor s (2 ^ Z.of_nat i) else s) (seq a n) s0)
      (Z.of_nat k) =
    Z.testbit s0 (Z.of_nat k) || ((a <=? k)%nat && (k <? a + n)%nat && f k).
Proof.
  induction n as [| n IH]; intros a s0 k; cbn [seq fold_left].
  - replace (k <? a + 0)%nat with (negb (a <=? k)%nat).
    + now destruct (a <=? k)%nat; rewrite ?orb_false_r.
    + destruct (Nat.leb_spec a k), (Nat.ltb_spec k (a + 0)); try reflexivity; lia.
  - rewrite IH.
    destruct (Nat.eq_dec k a) as [-> | Hka].
    + replace (S a <=? a)%nat with false
        by (symmetry; apply Nat.leb_gt; lia).
      rewrite Nat.leb_refl.
      replace (a <? a + S n)%nat with true
        by (symmetry; apply Nat.ltb_lt; lia).
      cbn [andb]. rewrite orb_false_r.
      destruct (f a); [| now rewrite orb_false_r].
      rewrite Z.lor_spec, Z.pow2_bits_true by lia. reflexivity.
    + assert (Hs : Z.testbit (if f a then Z.lor s0 (2 ^ Z.of_nat a) else s0) (Z.of_nat k) =
                   Z.testbit s0 (Z.of_nat k)).
      { destruct (f a); [| reflexivity].
        rewrite Z.lor_spec, Z.pow2_bits_false by lia. apply orb_false_r. }
      rewrite Hs. f_equal. f_equal.
      destruct (Nat.leb_spec (S a) k), (Nat.leb_spec a k),
        (Nat.ltb_spec k (S a + n)), (Nat.ltb_spec k (a + S n)); try reflexivity; lia.
Qed.

(** X22. How [SampleClone] assembles its answer from the raw sample that
    [MAllOptionalCollapse(false)] returned: bit [i] of the answer is set
    exactly when the raw sample has no bit in common with [qPowers[i]], and
    no bit beyond the length of [qPowers] is set.  The test in the source is
    [bi_compare_0(rawSample & qPowers[i]) != 0]. *)

Theorem SampleClone_sets_the_absent_bits (rand : nat -> Q) (qPowers : list Z)
    (q : QBdt) (i : nat) :
  Z.testbit (fst (SampleClone rand qPowers q)) (Z.of_nat i) =
  match qPowers !! i with
  | Some qPower => Z.land (fst (MAllOptionalCollapse false rand q)) qPower =? 0
  | None => false
  end.
Proof.
  unfold SampleClone.
  destruct (MAllOptionalCollapse false rand q) as [raw q'] eqn:E. cbn [fst].
  rewrite (fold_left_pointwise _
             (fun s i => if match qPowers !! i with
                            | Some qPower => Z.land raw qPower =? 0
                            | None => false
                            end
                         then Z.lor s (2 ^ Z.of_nat i) else s)).
  - rewrite or_of_powers. rewrite Z.testbit_0_l. cbn [orb Nat.leb andb].
    destruct (qPowers !! i) as [p |] eqn:Hp.
    + apply lookup_lt_Some in Hp.
      replace (i <? 0 + length qPowers)%nat with true
        by (symmetry; apply Nat.ltb_lt; lia).
      reflexivity.
    + apply andb_false_r.
  - intros s x. destruct (qPowers !! x) as [p |]; [| reflexivity].
    rewrite bi_compare_0_char.
    unfold BigInteger.operator_and, BigInteger.operator_or,
      BigInteger.mpz_and, BigInteger.mpz_ior.
    now destruct (Z.land raw p =? 0).
Qed.

End FurtherMeasurementFacts.

(** ** The word-array header *)

Lemma pow_words_step (n : nat) :
  2 ^ (64 * Z.of_nat (S n)) = 2 ^ 64 * 2 ^ (64 * Z.of_nat n).
Proof.
  replace (64 * Z.of_nat (S n)) with (64 + 64 * Z.of_nat n) by lia.
  now rewrite Z.pow_add_r by lia.
Qed.

Lemma carry_mod (B P c y : Z) :
  0 <= c < B -> 0 < P -> (c + B * y) mod (B * P) = c + B * (y mod P).
Proof.
  intros Hc HP. symmetry.
  apply (Z.mod_unique_pos _ _ (y / P)).
  - pose proof (Z.mod_pos_bound y P HP). nia.
  - pose proof (Z.div_mod y P ltac:(lia)). nia.
Qed.

Lemma words_value_range (ws : list Z) :
  Forall BigIntegerWords.is_word ws ->
  0 <= BigIntegerWords.words_value ws < 2 ^ (64 * Z.of_nat (length ws)).
Proof.
  induction ws as [| w rest IH]; intro Hall.
  - cbn. lia.
  - inversion Hall as [| w' rest' Hw Hrest]; subst w' rest'.
    specialize (IH Hrest). cbn [length BigIntegerWords.words_value].
    rewrite pow_words_step. unfold BigIntegerWords.is_word in Hw.
    set (B := 2 ^ 64) in *. clearbody B. nia.
Qed.

Lemma bi_compare_0_from_value (ws : list Z) :
  Forall BigIntegerWords.is_word ws ->
  BigIntegerWords.bi_compare_0_from ws =
  if BigIntegerWords.words_value ws =? 0 then 0 else 1.
Proof.
  induction ws as [| w rest IH]; intro Hall; [reflexivity |].
  inversion Hall as [| w' rest' Hw Hrest]; subst w' rest'.
  cbn [BigIntegerWords.bi_compare_0_from BigIntegerWords.words_value].
  pose proof (words_value_range rest Hrest) as Hr.
  unfold BigIntegerWords.is_word in Hw.
  destruct (Z.eqb_spec w 0) as [-> | Hnz]; cbn [negb].
  - rewrite (IH Hrest).
    destruct (Z.eqb_spec (BigIntegerWords.words_value rest) 0) as [-> | Hv].
    + reflexivity.
    + destruct (Z.eqb_spec (0 + 2 ^ 64 * BigIntegerWords.words_value rest) 0);
        [lia | reflexivity].
  - destruct (Z.eqb_spec (w + 2 ^ 64 * BigIntegerWords.words_value rest) 0);
      [lia | reflexivity].
Qed.

Lemma bi_compare_0_from_rev (ws : list Z) :
  BigIntegerWords.bi_compare_0_from (rev ws) = BigIntegerWords.bi_compare_0_from ws.
Proof.
  assert (Happ : forall a b,
             BigIntegerWords.bi_compare_0_from (a ++ b) =
             if negb (BigIntegerWords.bi_compare_0_from a =? 0) then 1
             else BigIntegerWords.bi_compare_0_from b).
  { induction a as [| w a IH]; intro b; cbn; [reflexivity |].
    destruct (w =? 0); cbn; [apply IH | reflexivity]. }
  induction ws as [| w rest IH]; [reflexivity |].
  cbn [rev BigIntegerWords.bi_compare_0_from]. rewrite Happ, IH.
  cbn [BigIntegerWords.bi_compare_0_from].
  assert (H01 : BigIntegerWords.bi_compare_0_from rest = 0 \/
                BigIntegerWords.bi_compare_0_from rest = 1).
  { clear. induction rest as [| v rest IH]; cbn; [now left |].
    destruct (v =? 0); cbn; [exact IH | now right]. }
  destruct H01 as [-> | ->]; cbn; now destruct (w =? 0).
Qed.

(** X23. [bi_compare_0] of the word-array header returns [0] when the
    number held by the words is zero and [1] otherwise: on every value it
    returns the other answer than [bi_compare_0] of the GNU MP header. *)

Theorem words_bi_compare_0_tests_nonzero (x : BigIntegerWords.BigInteger) :
  Forall BigIntegerWords.is_word (BigIntegerWords.bits x) ->
  BigIntegerWords.bi_compare_0 x =
    (if BigIntegerWords.words_value (BigIntegerWords.bits x) =? 0 then 0 else 1) /\
  BigIntegerWords.bi_compare_0 x =
    1 - BigInteger.bi_compare_0 (BigIntegerWords.words_value (BigIntegerWords.bits x)).
Proof.
  intro Hall. unfold BigIntegerWords.bi_compare_0.
  rewrite (bi_compare_0_from_value _ Hall), bi_compare_0_char.
  now destruct (BigIntegerWords.words_value (BigIntegerWords.bits x) =? 0).
Qed.

Lemma words_bi_compare_0_witness :
  BigIntegerWords.bi_compare_0 (BigIntegerWords.mkBigInteger [0; 3] 0) = 1 /\
  BigInteger.bi_compare_0 (3 * 2 ^ 64) = 0.
Proof.
  assert (Hall : Forall BigIntegerWords.is_word [0; 3])
    by (repeat constructor; unfold BigIntegerWords.is_word; lia).
  destruct (words_bi_compare_0_tests_nonzero
              (BigIntegerWords.mkBigInteger [0; 3] 0) Hall) as [H1 H2].
  split; [exact H1 | reflexivity].
Defined.

(** X24. [bi_compare_1] of the word-array header compares the number held
    by the words with one: it returns [-1], [0] or [1] as the number is
    below, equal to or above [1]. *)

Theorem words_bi_compare_1_compares_with_one (x : BigIntegerWords.BigInteger) :
  Forall BigIntegerWords.is_word (BigIntegerWords.bits x) ->
  BigIntegerWords.bits x <> [] ->
  BigIntegerWords.bi_compare_1 x =
  Some (Z.sgn (BigIntegerWords.words_value (BigIntegerWords.bits x) - 1)).
Proof.
  intros Hall Hne. unfold BigIntegerWords.bi_compare_1.
  destruct (BigIntegerWords.bits x) as [| w0 upper]; [contradiction |].
  inversion Hall as [| w' rest' Hw Hrest]; subst w' rest'.
  rewrite bi_compare_0_from_rev, (bi_compare_0_from_value _ Hrest).
  cbn [BigIntegerWords.words_value].
  pose proof (words_value_range upper Hrest) as Hr.
  unfold BigIntegerWords.is_word in Hw.
  destruct (Z.eqb_spec (BigIntegerWords.words_value upper) 0) as [-> | Hv]; cbn [Z.eqb negb].
  - replace (w0 + 2 ^ 64 * 0 - 1) with (w0 - 1) by lia.
    destruct (Z.ltb_spec 1 w0); [f_equal; lia |].
    destruct (Z.ltb_spec w0 1); f_equal; lia.
  - f_equal. lia.
Qed.

Lemma words_bi_compare_1_witness :
  BigIntegerWords.bi_compare_1 (BigIntegerWords.mkBigInteger [0; 3] 0) = Some 1 /\
  BigIntegerWords.bi_compare_1 (BigIntegerWords.mkBigInteger [1; 0] 0) = Some 0.
Proof.
  assert (H1 : Forall BigIntegerWords.is_word [0; 3])
    by (repeat constructor; unfold BigIntegerWords.is_word; lia).
  assert (H2 : [0; 3] <> []) by discriminate.
  split; [| reflexivity].
  exact (words_bi_compare_1_compares_with_one
           (BigIntegerWords.mkBigInteger [0; 3] 0) H1 H2).
Defined.

Lemma increment_from_value (ws : list Z) :
  Forall BigIntegerWords.is_word ws ->
  Forall BigIntegerWords.is_word (BigIntegerWords.increment_from ws) /\
  length (BigIntegerWords.increment_from ws) = length ws /\
  BigIntegerWords.words_value (BigIntegerWords.increment_from ws) =
  (BigIntegerWords.words_value ws + 1) mod 2 ^ (64 * Z.of_nat (length ws)).
Proof.
  induction ws as [| w rest IH]; intro Hall.
  - cbn. split; [constructor | split; reflexivity].
  - inversion Hall as [| w' rest' Hw Hrest]; subst w' rest'.
    destruct (IH Hrest) as (IHw & IHl & IHv).
    pose proof (words_value_range rest Hrest) as Hr.
    cbn [BigIntegerWords.increment_from length]. rewrite pow_words_step.
    unfold BigIntegerWords.is_word in Hw.
    assert (HP : 0 < 2 ^ (64 * Z.of_nat (length rest))) by lia.
    assert (HB : 0 < 2 ^ 64) by reflexivity.
    destruct (Z.lt_ge_cases (w + 1) (2 ^ 64)) as [Hlt | Hge].
    + rewrite (Z.mod_small (w + 1)) by lia.
      destruct (Z.leb_spec w (w + 1)); [| lia].
      split; [constructor; [unfold BigIntegerWords.is_word; lia | exact Hrest] |].
      split; [reflexivity |].
      cbn [BigIntegerWords.words_value].
      replace (w + 2 ^ 64 * BigIntegerWords.words_value rest + 1)
        with ((w + 1) + 2 ^ 64 * BigIntegerWords.words_value rest) by lia.
      rewrite carry_mod by lia. now rewrite (Z.mod_small _ _ Hr).
    + assert (Hw1 : w + 1 = 2 ^ 64) by lia.
      rewrite Hw1, Z.mod_same by lia.
      destruct (Z.leb_spec w 0); [lia |].
      split; [constructor; [unfold BigIntegerWords.is_word; lia | exact IHw] |].
      split; [cbn [length]; now rewrite IHl |].
      cbn [BigIntegerWords.words_value]. rewrite IHv.
      replace (w + 2 ^ 64 * BigIntegerWords.words_value rest + 1)
        with (0 + 2 ^ 64 * (BigIntegerWords.words_value rest + 1)) by lia.
      now rewrite carry_mod by lia.
Qed.

(** X25. [bi_increment] of the word-array header adds the word [value] to
    the number held by the words, modulo [2^(64 N)] for an array of [N]
    words: the carry out of word 0 travels up as far as needed, the carry
    out of the last word is dropped, and the [mpz_t] is read back from the
    new words. *)

Theorem words_bi_increment_adds (mpz_import : list Z -> Z)
    (pBigInt : BigIntegerWords.BigInteger) (value : Z) :
  Forall BigIntegerWords.is_word (BigIntegerWords.bits pBigInt) ->
  BigIntegerWords.bits pBigInt <> [] ->
  BigIntegerWords.is_word value ->
  exists p' : BigIntegerWords.BigInteger,
    BigIntegerWords.bi_increment mpz_import pBigInt value = Some p' /\
    Forall BigIntegerWords.is_word (BigIntegerWords.bits p') /\
    length (BigIntegerWords.bits p') = length (BigIntegerWords.bits pBigInt) /\
    BigIntegerWords.words_value (BigIntegerWords.bits p') =
      (BigIntegerWords.words_value (BigIntegerWords.bits pBigInt) + value)
        mod 2 ^ (64 * Z.of_nat (length (BigIntegerWords.bits pBigInt))) /\
    BigIntegerWords.mpz p' = mpz_import (BigIntegerWords.bits p').
Proof.
  intros Hall Hne Hv. unfold BigIntegerWords.bi_increment.
  destruct (BigIntegerWords.bits pBigInt) as [| w0 rest]; [contradiction |].
  inversion Hall as [| w' rest' Hw Hrest]; subst w' rest'.
  pose proof (words_value_range rest Hrest) as Hr.
  destruct (increment_from_value rest Hrest) as (Iw & Il & Iv).
  cbn [length]. rewrite pow_words_step.
  unfold BigIntegerWords.is_word in Hw, Hv.
  assert (HP : 0 < 2 ^ (64 * Z.of_nat (length rest))) by lia.
  assert (HB : 0 < 2 ^ 64) by reflexivity.
  cbn [BigIntegerWords.words_value].
  destruct (Z.lt_ge_cases (w0 + value) (2 ^ 64)) as [Hlt | Hge].
  - rewrite (Z.mod_small (w0 + value)) by lia.
    destruct (Z.leb_spec w0 (w0 + value)); [| lia].
    eexists. split; [reflexivity |].
    unfold BigIntegerWords.sync_mpz. cbn [BigIntegerWords.bits BigIntegerWords.mpz].
    split; [constructor; [unfold BigIntegerWords.is_word; lia | exact Hrest] |].
    split; [reflexivity |]. split; [| reflexivity].
    cbn [BigIntegerWords.words_value].
    replace (w0 + 2 ^ 64 * BigIntegerWords.words_value rest + value)
      with ((w0 + value) + 2 ^ 64 * BigIntegerWords.words_value rest) by lia.
    rewrite carry_mod by lia. now rewrite (Z.mod_small _ _ Hr).
  - assert (Hm : (w0 + value) mod 2 ^ 64 = w0 + value - 2 ^ 64).
    { symmetry. apply (Z.mod_unique_pos _ _ 1); lia. }
    rewrite Hm.
    destruct (Z.leb_spec w0 (w0 + value - 2 ^ 64)); [lia |].
    eexists. split; [reflexivity |].
    unfold BigIntegerWords.sync_mpz. cbn [BigIntegerWords.bits BigIntegerWords.mpz].
    split; [constructor; [unfold BigIntegerWords.is_word; lia | exact Iw] |].
    split; [cbn [length]; now rewrite Il |]. split; [| reflexivity].
    cbn [BigIntegerWords.words_value]. rewrite Iv.
    replace (w0 + 2 ^ 64 * BigIntegerWords.words_value rest + value)
      with ((w0 + value - 2 ^ 64) + 2 ^ 64 * (BigIntegerWords.words_value rest + 1))
      by lia.
    now rewrite carry_mod by lia.
Qed.

Lemma words_bi_increment_witness :
  exists p' : BigIntegerWords.BigInteger,
    BigIntegerWords.bi_increment BigIntegerWords.words_value
      (BigIntegerWords.mkBigInteger [2 ^ 64 - 1; 2 ^ 64 - 1; 4] 0) 3 = Some p' /\
    BigIntegerWords.bits p' = [2; 0; 5].
Proof.
  assert (H1 : Forall BigIntegerWords.is_word [2 ^ 64 - 1; 2 ^ 64 - 1; 4])
    by (repeat constructor; unfold BigIntegerWords.is_word; lia).
  assert (H2 : [2 ^ 64 - 1; 2 ^ 64 - 1; 4] <> []) by discriminate.
  assert (H3 : BigIntegerWords.is_word 3) by (unfold BigIntegerWords.is_word; lia).
  destruct (words_bi_increment_adds BigIntegerWords.words_value
              (BigIntegerWords.mkBigInteger [2 ^ 64 - 1; 2 ^ 64 - 1; 4] 0) 3 H1 H2 H3)
    as (p' & Hrun & _).
  exists p'. split; [exact Hrun |].
  vm_compute in Hrun. injection Hrun as <-. reflexivity.
Defined.

(** X26. [bi_decrement] of the word-array header never borrows from the
    words above the first.  When [value] is no more than word 0 it is
    subtracted from word 0; otherwise word 0 wraps around and the borrow
    loop, which starts at index [0], takes one more from word 0 and stops
    there, so the number held grows by [2^64 - 1 - value]. *)

Theorem words_bi_decrement_never_borrows (mpz_import : list Z -> Z)
    (pBigInt : BigIntegerWords.BigInteger) (value w0 : Z) (rest : list Z) :
  BigIntegerWords.bits pBigInt = w0 :: rest ->
  BigIntegerWords.is_word w0 ->
  BigIntegerWords.is_word value ->
  exists p' : BigIntegerWords.BigInteger,
    BigIntegerWords.bi_decrement mpz_import pBigInt value = Some p' /\
    BigIntegerWords.bits p' =
      (if value <=? w0 then w0 - value else w0 - value + 2 ^ 64 - 1) :: rest /\
    BigIntegerWords.words_value (BigIntegerWords.bits p') =
      BigIntegerWords.words_value (BigIntegerWords.bits pBigInt) - value +
      (if value <=? w0 then 0 else 2 ^ 64 - 1) /\
    BigIntegerWords.mpz p' = mpz_import (BigIntegerWords.bits p').
Proof.
  intros Hbits Hw Hv. unfold BigIntegerWords.bi_decrement. rewrite Hbits.
  unfold BigIntegerWords.is_word in Hw, Hv.
  assert (HB : 0 < 2 ^ 64) by reflexivity.
  destruct (Z.leb_spec value w0) as [Hle | Hgt].
  - rewrite (Z.mod_small (w0 - value)) by lia.
    destruct (Z.leb_spec (w0 - value) w0); [| lia].
    eexists. split; [reflexivity |].
    unfold BigIntegerWords.sync_mpz. cbn [BigIntegerWords.bits BigIntegerWords.mpz].
    split; [reflexivity |]. split; [| reflexivity].
    cbn [BigIntegerWords.words_value]. lia.
  - assert (Hm : (w0 - value) mod 2 ^ 64 = w0 - value + 2 ^ 64).
    { symmetry. apply (Z.mod_unique_pos _ _ (-1)); lia. }
    rewrite Hm.
    destruct (Z.leb_spec (w0 - value + 2 ^ 64) w0); [lia |].
    cbn [BigIntegerWords.decrement_from].
    rewrite (Z.mod_small (w0 - value + 2 ^ 64 - 1)) by lia.
    destruct (Z.leb_spec (w0 - value + 2 ^ 64 - 1) (w0 - value + 2 ^ 64)); [| lia].
    eexists. split; [reflexivity |].
    unfold BigIntegerWords.sync_mpz. cbn [BigIntegerWords.bits BigIntegerWords.mpz].
    split; [reflexivity |]. split; [| reflexivity].
    cbn [BigIntegerWords.words_value]. lia.
Qed.

Lemma words_bi_decrement_witness :
  exists p' : BigIntegerWords.BigInteger,
    BigIntegerWords.bi_decrement BigIntegerWords.words_value
      (BigIntegerWords.mkBigInteger [2; 5] 0) 3 = Some p' /\
    BigIntegerWords.bits p' = [2 ^ 64 - 2; 5].
Proof.
  assert (H1 : BigIntegerWords.bits (BigIntegerWords.mkBigInteger [2; 5] 0) = [2; 5])
    by reflexivity.
  assert (H2 : BigIntegerWords.is_word 2) by (unfold BigIntegerWords.is_word; lia).
  assert (H3 : BigIntegerWords.is_word 3) by (unfold BigIntegerWords.is_word; lia).
  destruct (words_bi_decrement_never_borrows BigIntegerWords.words_value
              (BigIntegerWords.mkBigInteger [2; 5] 0) 3 2 [5] H1 H2 H3)
    as (p' & Hrun & Hb & _).
  exists p'. split; [exact Hrun | exact Hb].
Defined.

(** *** Addition and subtraction in place *)

Lemma decrement_from_value (ws : list Z) :
  Forall BigIntegerWords.is_word ws ->
  Forall BigIntegerWords.is_word (BigIntegerWords.decrement_from ws) /\
  length (BigIntegerWords.decrement_from ws) = length ws /\
  BigIntegerWords.words_value (BigIntegerWords.decrement_from ws) =
  (BigIntegerWords.words_value ws - 1) mod 2 ^ (64 * Z.of_nat (length ws)).
Proof.
  induction ws as [| w rest IH]; intro Hall.
  - cbn. split; [constructor | split; reflexivity].
  - inversion Hall as [| w' rest' Hw Hrest]; subst w' rest'.
    destruct (IH Hrest) as (IHw & IHl & IHv).
    pose proof (words_value_range rest Hrest) as Hr.
    cbn [BigIntegerWords.decrement_from length]. rewrite pow_words_step.
    unfold BigIntegerWords.is_word in Hw.
    assert (HP : 0 < 2 ^ (64 * Z.of_nat (length rest))) by lia.
    assert (HB : 0 < 2 ^ 64) by reflexivity.
    destruct (Z.lt_ge_cases 0 w) as [Hpos | Hzero].
    + rewrite (Z.mod_small (w - 1)) by lia.
      destruct (Z.leb_spec (w - 1) w); [| lia].
      split; [constructor; [unfold BigIntegerWords.is_word; lia | exact Hrest] |].
      split; [reflexivity |].
      cbn [BigIntegerWords.words_value].
      replace (w + 2 ^ 64 * BigIntegerWords.words_value rest - 1)
        with ((w - 1) + 2 ^ 64 * BigIntegerWords.words_value rest) by lia.
      rewrite carry_mod by lia. now rewrite (Z.mod_small _ _ Hr).
    + assert (Hw0 : w = 0) by lia. subst w.
      assert (Hm : (0 - 1) mod 2 ^ 64 = 2 ^ 64 - 1) by reflexivity.
      rewrite Hm.
      destruct (Z.leb_spec (2 ^ 64 - 1) 0); [lia |].
      split; [constructor; [unfold BigIntegerWords.is_word; lia | exact IHw] |].
      split; [cbn [length]; now rewrite IHl |].
      cbn [BigIntegerWords.words_value]. rewrite IHv.
      replace (0 + 2 ^ 64 * BigIntegerWords.words_value rest - 1)
        with ((2 ^ 64 - 1) + 2 ^ 64 * (BigIntegerWords.words_value rest - 1)) by lia.
      now rewrite carry_mod by lia.
Qed.

Lemma add_from_step (v w : Z) (right' left' : list Z) :
  length left' = length right' ->
  BigIntegerWords.add_from (v :: right') (w :: left') =
  if (w + v) mod 2 ^ 64 <? w
  then (w + v) mod 2 ^ 64 ::
         BigIntegerWords.add_from right' (BigIntegerWords.increment_from left')
  else (w + v) mod 2 ^ 64 :: BigIntegerWords.add_from right' left'.
Proof.
  intro Hlen. cbn [BigIntegerWords.add_from].
  destruct left' as [| w1 left'']; [| reflexivity].
  destruct right' as [| v1 right'']; [| discriminate].
  cbn. now destruct (_ <? _).
Qed.

Lemma sub_from_step (v w : Z) (right' left' : list Z) :
  length left' = length right' ->
  BigIntegerWords.sub_from (v :: right') (w :: left') =
  if w <? (w - v) mod 2 ^ 64
  then (w - v) mod 2 ^ 64 ::
         BigIntegerWords.sub_from right' (BigIntegerWords.decrement_from left')
  else (w - v) mod 2 ^ 64 :: BigIntegerWords.sub_from right' left'.
Proof.
  intro Hlen. cbn [BigIntegerWords.sub_from].
  destruct left' as [| w1 left'']; [| reflexivity].
  destruct right' as [| v1 right'']; [| discriminate].
  cbn. now destruct (_ <? _).
Qed.

Lemma add_from_value (right : list Z) :
  forall left : list Z,
    length left = length right ->
    Forall BigIntegerWords.is_word left ->
    Forall BigIntegerWords.is_word right ->
    Forall BigIntegerWords.is_word (BigIntegerWords.add_from right left) /\
    length (BigIntegerWords.add_from right left) = length left /\
    BigIntegerWords.words_value (BigIntegerWords.add_from right left) =
    (BigIntegerWords.words_value left + BigIntegerWords.words_value right)
      mod 2 ^ (64 * Z.of_nat (length left)).
Proof.
  induction right as [| v right' IH]; intros left Hlen Hl Hr.
  - destruct left; [| discriminate]. cbn. split; [constructor | split; reflexivity].
  - destruct left as [| w left']; [discriminate |].
    injection Hlen as Hlen.
    inversion Hl as [| w0 l0 Hw Hl']; subst w0 l0.
    inversion Hr as [| v0 r0 Hv Hr']; subst v0 r0.
    rewrite (add_from_step _ _ _ _ Hlen).
    pose proof (words_value_range left' Hl') as Rl.
    cbn [length]. rewrite pow_words_step.
    unfold BigIntegerWords.is_word in Hw, Hv.
    assert (HP : 0 < 2 ^ (64 * Z.of_nat (length left'))) by lia.
    assert (HB : 0 < 2 ^ 64) by reflexivity.
    cbn [BigIntegerWords.words_value].
    destruct (Z.lt_ge_cases (w + v) (2 ^ 64)) as [Hlt | Hge].
    + rewrite (Z.mod_small (w + v)) by lia.
      destruct (Z.ltb_spec (w + v) w); [lia |].
      destruct (IH left' Hlen Hl' Hr') as (Iw & Il & Iv).
      split; [constructor; [unfold BigIntegerWords.is_word; lia | exact Iw] |].
      split; [cbn [length]; now rewrite Il |].
      cbn [BigIntegerWords.words_value]. rewrite Iv.
      replace (w + 2 ^ 64 * BigIntegerWords.words_value left' +
               (v + 2 ^ 64 * BigIntegerWords.words_value right'))
        with ((w + v) + 2 ^ 64 * (BigIntegerWords.words_value left' +
                                   BigIntegerWords.words_value right')) by lia.
      now rewrite carry_mod by lia.
    + assert (Hm : (w + v) mod 2 ^ 64 = w + v - 2 ^ 64).
      { symmetry. apply (Z.mod_unique_pos _ _ 1); lia. }
      rewrite Hm.
      destruct (Z.ltb_spec (w + v - 2 ^ 64) w); [| lia].
      destruct (increment_from_value left' Hl') as (Jw & Jl & Jv).
      destruct (IH (BigIntegerWords.increment_from left')
                   ltac:(now rewrite Jl) Jw Hr') as (Iw & Il & Iv).
      split; [constructor; [unfold BigIntegerWords.is_word; lia | exact Iw] |].
      split; [cbn [length]; now rewrite Il, Jl |].
      cbn [BigIntegerWords.words_value]. rewrite Iv, Jv, Jl.
      rewrite Zplus_mod_idemp_l.
      replace (w + 2 ^ 64 * BigIntegerWords.words_value left' +
               (v + 2 ^ 64 * BigIntegerWords.words_value right'))
        with ((w + v - 2 ^ 64) +
              2 ^ 64 * (BigIntegerWords.words_value left' + 1 +
                        BigIntegerWords.words_value right')) by lia.
      now rewrite carry_mod by lia.
Qed.

Lemma sub_from_value (right : list Z) :
  forall left : list Z,
    length left = length right ->
    Forall BigIntegerWords.is_word left ->
    Forall BigIntegerWords.is_word right ->
    Forall BigIntegerWords.is_word (BigIntegerWords.sub_from right left) /\
    length (BigIntegerWords.sub_from right left) = length left /\
    BigIntegerWords.words_value (BigIntegerWords.sub_from right left) =
    (BigIntegerWords.words_value left - BigIntegerWords.words_value right)
      mod 2 ^ (64 * Z.of_nat (length left)).
Proof.
  induction right as [| v right' IH]; intros left Hlen Hl Hr.
  - destruct left; [| discriminate]. cbn. split; [constructor | split; reflexivity].
  - destruct left as [| w left']; [discriminate |].
    injection Hlen as Hlen.
    inversion Hl as [| w0 l0 Hw Hl']; subst w0 l0.
    inversion Hr as [| v0 r0 Hv Hr']; subst v0 r0.
    rewrite (sub_from_step _ _ _ _ Hlen).
    pose proof (words_value_range left' Hl') as Rl.
    cbn [length]. rewrite pow_words_step.
    unfold BigIntegerWords.is_word in Hw, Hv.
    assert (HP : 0 < 2 ^ (64 * Z.of_nat (length left'))) by lia.
    assert (HB : 0 < 2 ^ 64) by reflexivity.
    cbn [BigIntegerWords.words_value].
    destruct (Z.le_gt_cases v w) as [Hle | Hgt].
    + rewrite (Z.mod_small (w - v)) by lia.
      destruct (Z.ltb_spec w (w - v)); [lia |].
      destruct (IH left' Hlen Hl' Hr') as (Iw & Il & Iv).
      split; [constructor; [unfold BigIntegerWords.is_word; lia | exact Iw] |].
      split; [cbn [length]; now rewrite Il |].
      cbn [BigIntegerWords.words_value]. rewrite Iv.
      replace (w + 2 ^ 64 * BigIntegerWords.words_value left' -
               (v + 2 ^ 64 * BigIntegerWords.words_value right'))
        with ((w - v) + 2 ^ 64 * (BigIntegerWords.words_value left' -
                                   BigIntegerWords.words_value right')) by lia.
      now rewrite carry_mod by lia.
    + assert (Hm : (w - v) mod 2 ^ 64 = w - v + 2 ^ 64).
      { symmetry. apply (Z.mod_unique_pos _ _ (-1)); lia. }
      rewrite Hm.
      destruct (Z.ltb_spec w (w - v + 2 ^ 64)); [| lia].
      destruct (decrement_from_value left' Hl') as (Jw & Jl & Jv).
      destruct (IH (BigIntegerWords.decrement_from left')
                   ltac:(now rewrite Jl) Jw Hr') as (Iw & Il & Iv).
      split; [constructor; [unfold BigIntegerWords.is_word; lia | exact Iw] |].
      split; [cbn [length]; now rewrite Il, Jl |].
      cbn [BigIntegerWords.words_value]. rewrite Iv, Jv, Jl.
      rewrite Zminus_mod_idemp_l.
      replace (w + 2 ^ 64 * BigIntegerWords.words_value left' -
               (v + 2 ^ 64 * BigIntegerWords.words_value right'))
        with ((w - v + 2 ^ 64) +
              2 ^ 64 * (BigIntegerWords.words_value left' - 1 -
                        BigIntegerWords.words_value right')) by lia.
      now rewrite carry_mod by lia.
Qed.

(** X27. [bi_add_ip] of the word-array header adds the two numbers modulo
    [2^(64 N)], [N] the number of words: every carry is passed on to the
    words above, the carry out of the last word is dropped, and the [mpz_t]
    is read back from the new words. *)

Theorem words_bi_add_ip_adds (mpz_import : list Z -> Z)
    (left right : BigIntegerWords.BigInteger) :
  length (BigIntegerWords.bits left) = length (BigIntegerWords.bits right) ->
  Forall BigIntegerWords.is_word (BigIntegerWords.bits left) ->
  Forall BigIntegerWords.is_word (BigIntegerWords.bits right) ->
  Forall BigIntegerWords.is_word
    (BigIntegerWords.bits (BigIntegerWords.bi_add_ip mpz_import left right)) /\
  length (BigIntegerWords.bits (BigIntegerWords.bi_add_ip mpz_import left right)) =
    length (BigIntegerWords.bits left) /\
  BigIntegerWords.words_value
    (BigIntegerWords.bits (BigIntegerWords.bi_add_ip mpz_import left right)) =
    (BigIntegerWords.words_value (BigIntegerWords.bits left) +
     BigIntegerWords.words_value (BigIntegerWords.bits right))
      mod 2 ^ (64 * Z.of_nat (length (BigIntegerWords.bits left))) /\
  BigIntegerWords.mpz (BigIntegerWords.bi_add_ip mpz_import left right) =
    mpz_import (BigIntegerWords.bits (BigIntegerWords.bi_add_ip mpz_import left right)).
Proof.
  intros Hlen Hl Hr.
  unfold BigIntegerWords.bi_add_ip, BigIntegerWords.sync_mpz.
  cbn [BigIntegerWords.bits BigIntegerWords.mpz].
  destruct (add_from_value _ _ Hlen Hl Hr) as (Hw & Hn & Hv).
  repeat split; assumption.
Qed.

Lemma words_bi_add_ip_witness :
  BigIntegerWords.bits
    (BigIntegerWords.bi_add_ip BigIntegerWords.words_value
       (BigIntegerWords.mkBigInteger [2 ^ 64 - 1; 2 ^ 64 - 1; 1] 0)
       (BigIntegerWords.mkBigInteger [3; 0; 2 ^ 64 - 2] 0)) = [2; 0; 0] /\
  BigIntegerWords.words_value
    (BigIntegerWords.bits
       (BigIntegerWords.bi_add_ip BigIntegerWords.words_value
          (BigIntegerWords.mkBigInteger [2 ^ 64 - 1; 2 ^ 64 - 1; 1] 0)
          (BigIntegerWords.mkBigInteger [3; 0; 2 ^ 64 - 2] 0))) =
  (BigIntegerWords.words_value [2 ^ 64 - 1; 2 ^ 64 - 1; 1] +
   BigIntegerWords.words_value [3; 0; 2 ^ 64 - 2]) mod 2 ^ (64 * 3).
Proof.
  assert (H1 : length [2 ^ 64 - 1; 2 ^ 64 - 1; 1] = length [3; 0; 2 ^ 64 - 2])
    by reflexivity.
  assert (H2 : Forall BigIntegerWords.is_word [2 ^ 64 - 1; 2 ^ 64 - 1; 1])
    by (repeat constructor; unfold BigIntegerWords.is_word; lia).
  assert (H3 : Forall BigIntegerWords.is_word [3; 0; 2 ^ 64 - 2])
    by (repeat constructor; unfold BigIntegerWords.is_word; lia).
  split; [reflexivity |].
  exact (proj1 (proj2 (proj2
    (words_bi_add_ip_adds BigIntegerWords.words_value
       (BigIntegerWords.mkBigInteger [2 ^ 64 - 1; 2 ^ 64 - 1; 1] 0)
       (BigIntegerWords.mkBigInteger [3; 0; 2 ^ 64 - 2] 0) H1 H2 H3)))).
Defined.

(** X28. [bi_sub_ip] of the word-array header subtracts modulo [2^(64 N)]:
    unlike [bi_decrement], a borrow out of a word is taken from the words
    above it. *)

Theorem words_bi_sub_ip_subtracts (mpz_import : list Z -> Z)
    (left right : BigIntegerWords.BigInteger) :
  length (BigIntegerWords.bits left) = length (BigIntegerWords.bits right) ->
  Forall BigIntegerWords.is_word (BigIntegerWords.bits left) ->
  Forall BigIntegerWords.is_word (BigIntegerWords.bits right) ->
  Forall BigIntegerWords.is_word
    (BigIntegerWords.bits (BigIntegerWords.bi_sub_ip mpz_import left right)) /\
  length (BigIntegerWords.bits (BigIntegerWords.bi_sub_ip mpz_import left right)) =
    length (BigIntegerWords.bits left) /\
  BigIntegerWords.words_value
    (BigIntegerWords.bits (BigIntegerWords.bi_sub_ip mpz_import left right)) =
    (BigIntegerWords.words_value (BigIntegerWords.bits left) -
     BigIntegerWords.words_value (BigIntegerWords.bits right))
      mod 2 ^ (64 * Z.of_nat (length (BigIntegerWords.bits left))) /\
  BigIntegerWords.mpz (BigIntegerWords.bi_sub_ip mpz_import left right) =
    mpz_import (BigIntegerWords.bits (BigIntegerWords.bi_sub_ip mpz_import left right)).
Proof.
  intros Hlen Hl Hr.
  unfold BigIntegerWords.bi_sub_ip, BigIntegerWords.sync_mpz.
  cbn [BigIntegerWords.bits BigIntegerWords.mpz].
  destruct (sub_from_value _ _ Hlen Hl Hr) as (Hw & Hn & Hv).
  repeat split; assumption.
Qed.

Lemma words_bi_sub_ip_witness :
  BigIntegerWords.bits
    (BigIntegerWords.bi_sub_ip BigIntegerWords.words_value
       (BigIntegerWords.mkBigInteger [2; 0; 5] 0)
       (BigIntegerWords.mkBigInteger [3; 0; 0] 0)) = [2 ^ 64 - 1; 2 ^ 64 - 1; 4] /\
  BigIntegerWords.words_value
    (BigIntegerWords.bits
       (BigIntegerWords.bi_sub_ip BigIntegerWords.words_value
          (BigIntegerWords.mkBigInteger [2; 0; 5] 0)
          (BigIntegerWords.mkBigInteger [3; 0; 0] 0))) =
  (BigIntegerWords.words_value [2; 0; 5] - BigIntegerWords.words_value [3; 0; 0])
    mod 2 ^ (64 * 3).
Proof.
  assert (H1 : length [2; 0; 5] = length [3; 0; 0]) by reflexivity.
  assert (H2 : Forall BigIntegerWords.is_word [2; 0; 5])
    by (repeat constructor; unfold BigIntegerWords.is_word; lia).
  assert (H3 : Forall BigIntegerWords.is_word [3; 0; 0])
    by (repeat constructor; unfold BigIntegerWords.is_word; lia).
  split; [reflexivity |].
  exact (proj1 (proj2 (proj2
    (words_bi_sub_ip_subtracts BigIntegerWords.words_value
       (BigIntegerWords.mkBigInteger [2; 0; 5] 0)
       (BigIntegerWords.mkBigInteger [3; 0; 0] 0) H1 H2 H3)))).
Defined.

(** *** Shifts by whole words, in place *)

Lemma clear_from_below (k : nat) :
  forall (s : list Z) (i : nat),
    fold_left (fun s i => <[i := 0]> s) (seq 0 k) s !! i =
    if (i <? k)%nat then (if (i <? length s)%nat then Some 0 else None) else s !! i.
Proof.
  induction k as [| k IH]; intros s i.
  - reflexivity.
  - rewrite seq_S, fold_left_app. cbn [fold_left Nat.add].
    destruct (Nat.eq_dec i k) as [-> | Hik].
    + replace (k <? S k)%nat with true by (symmetry; apply Nat.ltb_lt; lia).
      destruct (Nat.ltb_spec k (length s)) as [Hlt | Hge].
      * apply list_lookup_insert_eq.
        clear -Hlt. revert s Hlt. induction (seq 0 k) as [| x l IHl]; intros s Hlt;
          cbn [fold_left]; [exact Hlt |]. apply IHl. now rewrite length_insert.
      * apply lookup_ge_None. rewrite length_insert.
        clear -Hge. revert s Hge. induction (seq 0 k) as [| x l IHl]; intros s Hge;
          cbn [fold_left]; [exact Hge |]. apply IHl. now rewrite length_insert.
    + rewrite list_lookup_insert_ne by lia. rewrite IH.
      destruct (Nat.ltb_spec i k), (Nat.ltb_spec i (S k)); try reflexivity; lia.
Qed.

Lemma clear_from_above (n k : nat) :
  forall (s : list Z) (i : nat),
    length s = n -> (k <= n)%nat -> (i < n)%nat ->
    fold_left (fun s i => <[(n - 1 - i)%nat := 0]> s) (seq 0 k) s !! i =
    if (n - k <=? i)%nat then Some 0 else s !! i.
Proof.
  induction k as [| k IH]; intros s i Hlen Hk Hi.
  - replace (n - 0 <=? i)%nat with false by (symmetry; apply Nat.leb_gt; lia).
    reflexivity.
  - rewrite seq_S, fold_left_app. cbn [fold_left Nat.add].
    assert (Hl : forall l : list nat,
               length (fold_left (fun s i => <[(n - 1 - i)%nat := 0]> s) l s) = n).
    { intro l. clear -Hlen. revert s Hlen.
      induction l as [| x l IHl]; intros s Hlen; cbn [fold_left]; [exact Hlen |].
      apply IHl. now rewrite length_insert. }
    destruct (Nat.eq_dec i (n - 1 - k)%nat) as [-> | Hik].
    + replace (n - S k <=? n - 1 - k)%nat with true
        by (symmetry; apply Nat.leb_le; lia).
      apply list_lookup_insert_eq. rewrite Hl. lia.
    + rewrite list_lookup_insert_ne by lia. rewrite IH by lia.
      destruct (Nat.leb_spec (n - k)%nat i), (Nat.leb_spec (n - S k)%nat i);
        try reflexivity; lia.
Qed.

Lemma lshift_word_copy_rounds (r : nat) (ws : list Z) (k : nat) :
  (0 < r)%nat -> (r + k <= length ws)%nat ->
  length (fold_left (fun s i => <[i := default 0 (s !! (i - r)%nat)]> s)
                    (seq r k) ws) = length ws /\
  forall i : nat,
    fold_left (fun s i => <[i := default 0 (s !! (i - r)%nat)]> s) (seq r k) ws !! i =
    if (r <=? i)%nat && (i <? r + k)%nat then ws !! (i mod r)%nat else ws !! i.
Proof.
  intro Hr. induction k as [| k IH]; intro Hk.
  - split; [reflexivity |]. intro i. cbn [seq fold_left].
    destruct (Nat.leb_spec r i), (Nat.ltb_spec i (r + 0)%nat); try reflexivity; lia.
  - destruct (IH ltac:(lia)) as [IHl IHv].
    rewrite seq_S, fold_left_app. cbn [fold_left].
    split; [now rewrite length_insert |].
    intro i.
    replace (r + k - r)%nat with k by lia.
    assert (Hsrc : fold_left (fun s i => <[i := default 0 (s !! (i - r)%nat)]> s)
                             (seq r k) ws !! k = ws !! ((r + k) mod r)%nat).
    { rewrite IHv.
      replace ((r + k) mod r)%nat with (k mod r)%nat
        by (replace (r + k)%nat with (k + 1 * r)%nat by lia;
            now rewrite Nat.Div0.mod_add).
      destruct (Nat.leb_spec r k) as [Hge | Hlt]; cbn [andb].
      - replace (k <? r + k)%nat with true by (symmetry; apply Nat.ltb_lt; lia).
        reflexivity.
      - now rewrite Nat.mod_small by lia. }
    assert (Hin : is_Some (ws !! ((r + k) mod r)%nat)).
    { apply lookup_lt_is_Some.
      pose proof (Nat.mod_upper_bound (r + k)%nat r ltac:(lia)). lia. }
    destruct Hin as [x Hx].
    rewrite Hsrc, Hx. cbn [default].
    destruct (Nat.eq_dec i (r + k)%nat) as [-> | Hik].
    + rewrite list_lookup_insert_eq by (rewrite IHl; lia).
      replace (r <=? r + k)%nat with true by (symmetry; apply Nat.leb_le; lia).
      replace (r + k <? r + S k)%nat with true by (symmetry; apply Nat.ltb_lt; lia).
      cbn [andb]. now rewrite Hx.
    + rewrite list_lookup_insert_ne by lia. rewrite IHv.
      destruct (Nat.leb_spec r i), (Nat.ltb_spec i (r + k)%nat),
        (Nat.ltb_spec i (r + S k)%nat); try reflexivity; lia.
Qed.

Lemma rshift_word_copy_rounds (r : nat) (ws : list Z) (k : nat) :
  (r + k <= length ws)%nat ->
  length (fold_left (fun s i => <[(i - r)%nat := default 0 (s !! i)]> s)
                    (seq r k) ws) = length ws /\
  forall i : nat,
    fold_left (fun s i => <[(i - r)%nat := default 0 (s !! i)]> s) (seq r k) ws !! i =
    if (i <? k)%nat then ws !! (i + r)%nat else ws !! i.
Proof.
  induction k as [| k IH]; intro Hk.
  - split; reflexivity.
  - destruct (IH ltac:(lia)) as [IHl IHv].
    rewrite seq_S, fold_left_app. cbn [fold_left].
    split; [now rewrite length_insert |].
    intro i.
    replace (r + k - r)%nat with k by lia.
    assert (Hsrc : fold_left (fun s i => <[(i - r)%nat := default 0 (s !! i)]> s)
                             (seq r k) ws !! (r + k)%nat = ws !! (k + r)%nat).
    { rewrite IHv.
      replace (r + k <? k)%nat with false by (symmetry; apply Nat.ltb_ge; lia).
      f_equal. lia. }
    assert (Hin : is_Some (ws !! (k + r)%nat)) by (apply lookup_lt_is_Some; lia).
    destruct Hin as [x Hx].
    rewrite Hsrc, Hx. cbn [default].
    destruct (Nat.eq_dec i k) as [-> | Hik].
    + rewrite list_lookup_insert_eq by (rewrite IHl; lia).
      replace (k <? S k)%nat with true by (symmetry; apply Nat.ltb_lt; lia).
      now rewrite Hx.
    + rewrite list_lookup_insert_ne by lia. rewrite IHv.
      destruct (Nat.ltb_spec i k), (Nat.ltb_spec i (S k)); try reflexivity; lia.
Qed.

(** X29. [bi_lshift_word_ip] of the word-array header, for a masked count
    [r] between [1] and the number of words: the words below [r] become
    zero, and word [i] from [r] on receives the old word [i mod r], not the
    old word [i - r]; the copy runs upwards in place and reads words it has
    already written.  The result is the shift by [r] words only when the
    array has no more than [2 r] words. *)

Theorem words_bi_lshift_word_ip_repeats (mpz_import : list Z -> Z)
    (left : BigIntegerWords.BigInteger) (rightMult : nat) :
  (0 < Nat.land rightMult 63 <= length (BigIntegerWords.bits left))%nat ->
  exists p' : BigIntegerWords.BigInteger,
    BigIntegerWords.bi_lshift_word_ip mpz_import left rightMult = Some p' /\
    length (BigIntegerWords.bits p') = length (BigIntegerWords.bits left) /\
    (forall i : nat,
        (i < length (BigIntegerWords.bits left))%nat ->
        BigIntegerWords.bits p' !! i =
        if (i <? Nat.land rightMult 63)%nat then Some 0
        else BigIntegerWords.bits left !! (i mod Nat.land rightMult 63)%nat) /\
    BigIntegerWords.mpz p' = mpz_import (BigIntegerWords.bits p').
Proof.
  intros [Hr0 HrN]. unfold BigIntegerWords.bi_lshift_word_ip.
  set (r := Nat.land rightMult 63) in *.
  destruct (Nat.eqb_spec r 0) as [E | _]; [lia |].
  destruct (Nat.ltb_spec (length (BigIntegerWords.bits left)) r) as [E | _]; [lia |].
  eexists. split; [reflexivity |].
  unfold BigIntegerWords.sync_mpz, BigIntegerWords.lshift_word_copy.
  cbn [BigIntegerWords.bits BigIntegerWords.mpz].
  destruct (lshift_word_copy_rounds r (BigIntegerWords.bits left)
              (length (BigIntegerWords.bits left) - r)%nat Hr0 ltac:(lia)) as [Hl Hv].
  assert (Hlen : forall (l : list nat) (s : list Z),
             length (fold_left (fun s i => <[i := 0]> s) l s) = length s).
  { induction l as [| x l IHl]; intro s; cbn [fold_left]; [reflexivity |].
    now rewrite IHl, length_insert. }
  split; [now rewrite Hlen, Hl |]. split; [| reflexivity].
  intros i Hi. rewrite clear_from_below, Hl, Hv.
  destruct (Nat.ltb_spec i r) as [Hlt | Hge].
  - destruct (Nat.ltb_spec i (length (BigIntegerWords.bits left))); [reflexivity | lia].
  - destruct (Nat.leb_spec r i); [| lia].
    destruct (Nat.ltb_spec i (r + (length (BigIntegerWords.bits left) - r))%nat);
      [reflexivity | lia].
Qed.

Lemma words_bi_lshift_word_ip_witness :
  exists p' : BigIntegerWords.BigInteger,
    BigIntegerWords.bi_lshift_word_ip BigIntegerWords.words_value
      (BigIntegerWords.mkBigInteger [1; 2; 3; 4] 0) 1 = Some p' /\
    BigIntegerWords.bits p' = [0; 1; 1; 1].
Proof.
  assert (H : (0 < Nat.land 1 63 <=
               length (BigIntegerWords.bits
                         (BigIntegerWords.mkBigInteger [1%Z; 2%Z; 3%Z; 4%Z] 0%Z)))%nat)
    by (vm_compute; lia).
  destruct (words_bi_lshift_word_ip_repeats BigIntegerWords.words_value
              (BigIntegerWords.mkBigInteger [1; 2; 3; 4] 0) 1 H)
    as (p' & Hrun & _).
  exists p'. split; [exact Hrun |].
  vm_compute in Hrun. injection Hrun as <-. reflexivity.
Defined.

Lemma words_value_app (a b : list Z) :
  BigIntegerWords.words_value (a ++ b) =
  BigIntegerWords.words_value a +
  2 ^ (64 * Z.of_nat (length a)) * BigIntegerWords.words_value b.
Proof.
  induction a as [| w a IH]; [cbn [app length BigIntegerWords.words_value]; cbn; lia |].
  cbn [app length BigIntegerWords.words_value]. rewrite IH, pow_words_step. lia.
Qed.

Lemma words_value_zeros (r : nat) :
  BigIntegerWords.words_value (replicate r 0) = 0.
Proof.
  induction r as [| r IH]; [reflexivity |].
  cbn [replicate BigIntegerWords.words_value]. rewrite IH. lia.
Qed.

(** X30. [bi_rshift_word_ip] of the word-array header, for a count no more
    than the number of words: the array loses its lowest [rightMult] words
    and is filled up with zero words, so the number held is divided by
    [2^(64 rightMult)], rounded down. *)

Theorem words_bi_rshift_word_ip_divides (mpz_import : list Z -> Z)
    (left : BigIntegerWords.BigInteger) (rightMult : nat) :
  (rightMult <= length (BigIntegerWords.bits left))%nat ->
  Forall BigIntegerWords.is_word (BigIntegerWords.bits left) ->
  exists p' : BigIntegerWords.BigInteger,
    BigIntegerWords.bi_rshift_word_ip mpz_import left rightMult = Some p' /\
    BigIntegerWords.bits p' =
      drop rightMult (BigIntegerWords.bits left) ++ replicate rightMult 0 /\
    BigIntegerWords.words_value (BigIntegerWords.bits p') =
      BigIntegerWords.words_value (BigIntegerWords.bits left) /
      2 ^ (64 * Z.of_nat rightMult).
Proof.
  intros HrN Hall.
  assert (Hval : BigIntegerWords.words_value
                   (drop rightMult (BigIntegerWords.bits left) ++ replicate rightMult 0) =
                 BigIntegerWords.words_value (BigIntegerWords.bits left) /
                 2 ^ (64 * Z.of_nat rightMult)).
  { rewrite words_value_app, words_value_zeros, Z.mul_0_r, Z.add_0_r.
    rewrite <- (take_drop rightMult (BigIntegerWords.bits left)) at 2.
    rewrite words_value_app, length_take, Nat.min_l by lia.
    assert (Ht : Forall BigIntegerWords.is_word (take rightMult (BigIntegerWords.bits left)))
      by (now apply Forall_take).
    pose proof (words_value_range _ Ht) as Rt.
    rewrite length_take, Nat.min_l in Rt by lia.
    apply Z.div_unique_pos with
      (r := BigIntegerWords.words_value (take rightMult (BigIntegerWords.bits left)));
      [exact Rt | lia]. }
  unfold BigIntegerWords.bi_rshift_word_ip.
  destruct (Nat.eqb_spec rightMult 0) as [-> | Hr0].
  - exists left. split; [reflexivity |].
    cbn [drop replicate] in *. rewrite app_nil_r in *. split; [reflexivity | exact Hval].
  - destruct (Nat.ltb_spec (length (BigIntegerWords.bits left)) rightMult) as [E | _];
      [lia |].
    eexists. split; [reflexivity |].
    unfold BigIntegerWords.sync_mpz, BigIntegerWords.rshift_word_copy.
    cbn [BigIntegerWords.bits BigIntegerWords.mpz].
    destruct (rshift_word_copy_rounds rightMult (BigIntegerWords.bits left)
                (length (BigIntegerWords.bits left) - rightMult)%nat ltac:(lia)) as [Hl Hv].
    assert (Hbits :
      fold_left (fun s i => <[(length (BigIntegerWords.bits left) - 1 - i)%nat := 0]> s)
        (seq 0 rightMult)
        (fold_left (fun s i => <[(i - rightMult)%nat := default 0 (s !! i)]> s)
           (seq rightMult (length (BigIntegerWords.bits left) - rightMult))
           (BigIntegerWords.bits left)) =
      drop rightMult (BigIntegerWords.bits left) ++ replicate rightMult 0).
    { apply list_eq. intro i.
      destruct (Nat.lt_ge_cases i (length (BigIntegerWords.bits left))) as [Hi | Hi].
      - rewrite (clear_from_above (length (BigIntegerWords.bits left))) by (exact Hl || lia).
        rewrite Hv.
        destruct (Nat.leb_spec (length (BigIntegerWords.bits left) - rightMult)%nat i)
          as [Hhi | Hlo].
        + rewrite lookup_app_r by (rewrite length_drop; lia).
          symmetry. apply lookup_replicate_2. rewrite length_drop. lia.
        + rewrite lookup_app_l by (rewrite length_drop; lia).
          rewrite lookup_drop.
          destruct (Nat.ltb_spec i (length (BigIntegerWords.bits left) - rightMult)%nat);
            [| lia].
          f_equal. lia.
      - rewrite !lookup_ge_None_2; [reflexivity | |].
        + rewrite length_app, length_drop, length_replicate. lia.
        + assert (Hlen : forall (l : list nat) (s : list Z),
             length (fold_left
                       (fun s i => <[(length (BigIntegerWords.bits left) - 1 - i)%nat := 0]> s)
                       l s) = length s).
          { induction l as [| x l IHl]; intro s; cbn [fold_left]; [reflexivity |].
            now rewrite IHl, length_insert. }
          rewrite Hlen, Hl. lia. }
    rewrite Hbits. split; [reflexivity | exact Hval].
Qed.

Lemma words_bi_rshift_word_ip_witness :
  exists p' : BigIntegerWords.BigInteger,
    BigIntegerWords.bi_rshift_word_ip BigIntegerWords.words_value
      (BigIntegerWords.mkBigInteger [1; 2; 3; 4] 0) 1 = Some p' /\
    BigIntegerWords.bits p' = [2; 3; 4; 0].
Proof.
  assert (H1 : (1 <= length (BigIntegerWords.bits
                               (BigIntegerWords.mkBigInteger [1%Z; 2%Z; 3%Z; 4%Z] 0%Z)))%nat)
    by (simpl; lia).
  assert (H2 : Forall BigIntegerWords.is_word
                 (BigIntegerWords.bits (BigIntegerWords.mkBigInteger [1; 2; 3; 4] 0)))
    by (repeat constructor; unfold BigIntegerWords.is_word; lia).
  destruct (words_bi_rshift_word_ip_divides BigIntegerWords.words_value
              (BigIntegerWords.mkBigInteger [1; 2; 3; 4] 0) 1 H1 H2)
    as (p' & Hrun & Hb & _).
  exists p'. split; [exact Hrun | exact Hb].
Defined.

(** ** The further facts on the demonstration registers *)

Section FurtherDemoFacts.

Existing Instance demo_config.
Existing Instance demo_complex.
Existing Instance demo_collaborators.
Existing Instance demo_measure.

(** The one-qubit register read into an array of three slots: the pending
    gate is committed, two slots are filled and the third is left alone. *)

Lemma GetQuantumState_fills_witness :
  Z.of_nat (qubitCount demo_register) <= bitCapIntOcl_bits /\
  2 ^ Z.of_nat (qubitCount demo_register) <= Z.of_nat (length [0; 0; 7]) /\
  exists (q1 : QBdt) (state' : list Z),
    GetQuantumState demo_register [0; 0; 7] = Some (q1, state') /\
    state' = [9; 12; 7].
Proof.
  assert (Hn : Z.of_nat (qubitCount demo_register) <= bitCapIntOcl_bits)
    by (vm_compute; discriminate).
  assert (Hl : 2 ^ Z.of_nat (qubitCount demo_register) <= Z.of_nat (length [0; 0; 7]))
    by (vm_compute; discriminate).
  split; [exact Hn |]. split; [exact Hl |].
  destruct (@GetQuantumState_fills_the_array
              demo_config demo_complex demo_collaborators
              demo_register [0; 0; 7] Hn Hl)
    as (q1 & state' & Hrun & _).
  exists q1, state'. split; [exact Hrun |].
  vm_compute in Hrun. now injection Hrun as _ <-.
Defined.

Lemma GetProbs_fills_witness :
  Z.of_nat (qubitCount demo_register) <= bitCapIntOcl_bits /\
  2 ^ Z.of_nat (qubitCount demo_register) <= Z.of_nat (length [0%Q; 0%Q]) /\
  exists (q1 : QBdt) (probs' : list Q),
    GetProbs demo_register [0%Q; 0%Q] = Some (q1, probs') /\
    probs' = [(81 # 1)%Q; (144 # 1)%Q].
Proof.
  assert (Hn : Z.of_nat (qubitCount demo_register) <= bitCapIntOcl_bits)
    by (vm_compute; discriminate).
  assert (Hl : 2 ^ Z.of_nat (qubitCount demo_register) <= Z.of_nat (length [0%Q; 0%Q]))
    by (vm_compute; discriminate).
  split; [exact Hn |]. split; [exact Hl |].
  destruct (@GetProbs_fills_the_array
              demo_config demo_complex demo_collaborators demo_measure
              demo_register [0%Q; 0%Q] Hn Hl)
    as (q1 & probs' & Hrun & _).
  exists q1, probs'. split; [exact Hrun |].
  vm_compute in Hrun. now injection Hrun as _ <-.
Defined.

(** Two one-qubit registers with different trees and buffers. *)

Lemma SetTraversal_forgets_witness :
  qubitCount demo_register = qubitCount (mkQBdt 1 (mkNode 7 None None) [None] []) /\
  option_map root (SetTraversal demo_assign demo_register) =
  option_map root (SetTraversal demo_assign (mkQBdt 1 (mkNode 7 None None) [None] [])).
Proof.
  assert (Hq : qubitCount demo_register =
               qubitCount (mkQBdt 1 (mkNode 7 None None) [None] []))
    by reflexivity.
  split; [exact Hq |].
  exact (@SetTraversal_forgets_the_register
           demo_config demo_complex demo_collaborators
           demo_assign demo_register (mkQBdt 1 (mkNode 7 None None) [None] []) Hq).
Defined.

(** The assignment loop on a freshly branched one-qubit tree. *)

Lemma SetQuantumState_loop_witness :
  exists (t' leaf : QBdtNode),
    par_for (2 ^ Z.of_nat 1)
      (fun i r => SetTraversal_descend i 0 1
                    ((fun i leaf => set_scale (i + 5) leaf) (to_bitCapIntOcl i)) r)
      (Branch 1 new_QBdtNode) = Some t' /\
    leaf_at 1 0 1 t' = Some leaf /\ node_scale leaf = 6.
Proof.
  assert (Hrun :
    par_for (2 ^ Z.of_nat 1)
      (fun i r => SetTraversal_descend i 0 1
                    ((fun i leaf => set_scale (i + 5) leaf) (to_bitCapIntOcl i)) r)
      (Branch 1 new_QBdtNode) =
    Some (mkNode 1 (Some (mkNode 5 None None)) (Some (mkNode 6 None None))))
    by reflexivity.
  assert (Hi : 0 <= 1 < 2 ^ Z.of_nat 1) by (simpl; lia).
  destruct (@SetQuantumState_loop_assigns_every_leaf
              demo_config demo_complex 1 (fun i => i + 5)
              (Branch 1 new_QBdtNode) _ 1 Hrun Hi)
    as (leaf & Hleaf & Hscale).
  eexists. exists leaf.
  split; [exact Hrun |]. split; [exact Hleaf | exact Hscale].
Defined.

End FurtherDemoFacts.
